(** * Wurlitzer jukebox: slot map and song search

    A shallow embedding of the slot-map construction of the jukebox page
    (the Swiper-based jukebox script: [slotToAlbum], [albumStartSlot], the
    slot-jump handler) and of the track search described in
    [SONG_SEARCH.md] ([norm], [fuzzyScore], [findBestSong],
    [computePlatzForSong]), together with the properties the specification
    states about them.

    Conventions.
    - A JavaScript string is its sequence of UTF-16 code units, [list N].
    - A JavaScript number is [number]: NaN, the two infinities, or a finite
      double carried as the rational it denotes.  Comparison, [Math.min],
      [Math.max], truthiness and the use as an array index are exact on
      doubles; a numeric literal, the conversion of a string to a number and
      every sum and quotient give the exact result rounded to the nearest
      double ([nearestDouble], [toDouble]).  The scores of [fuzzyScore] are
      finite and are carried as rationals.
    - JavaScript arrays are lists, read with [!!] and written with
      [<[_ := _]>]. *)

From Stdlib Require Import ZArith QArith Qminmax Qround Qpower Qabs Lia.
From stdpp Require Import base decidable numbers option list strings pretty.

Local Open Scope Z_scope.

(** ** Strings *)

Abbreviation jsstring := (list N).

(** The code units of an ASCII literal. *)
Definition units (s : string) : jsstring :=
  map Ascii.N_of_ascii (String.list_ascii_of_string s).
Arguments units s%_string.

(** White space and line terminators: the characters matched by [\s],
    removed by [String.prototype.trim] and skipped by [Number] around a
    numeric string. *)
Definition isWhiteSpace (c : N) : bool :=
  ((9 <=? c) && (c <=? 13) || (c =? 32) || (c =? 160) || (c =? 5760)
   || (8192 <=? c) && (c <=? 8202) || (c =? 8232) || (c =? 8233)
   || (c =? 8239) || (c =? 8287) || (c =? 12288) || (c =? 65279))%N.

(** [s.trim()]: the white space before the first and after the last other
    character is removed. *)
Fixpoint trimStart (s : jsstring) : jsstring :=
  match s with
  | [] => []
  | c :: s' => if isWhiteSpace c then trimStart s' else s
  end.
Fixpoint trimEnd (s : jsstring) : jsstring :=
  match s with
  | [] => []
  | c :: s' =>
      match trimEnd s' with
      | [] => if isWhiteSpace c then [] else [c]
      | t => c :: t
      end
  end.
Definition trim (s : jsstring) : jsstring := trimEnd (trimStart s).

(** [s.startsWith(p)] *)
Fixpoint startsWith (s p : jsstring) : bool :=
  match p, s with
  | [], _ => true
  | _ :: _, [] => false
  | b :: p', a :: s' => (a =? b)%N && startsWith s' p'
  end.

(** [s.includes(p)] *)
Fixpoint includes (s p : jsstring) : bool :=
  startsWith s p ||
  match s with
  | [] => false
  | _ :: s' => includes s' p
  end.

(** [s.split(sep)] for a separator of one code unit. *)
Fixpoint split (sep : N) (s : jsstring) : list jsstring :=
  match s with
  | [] => [[]]
  | c :: s' =>
      if (c =? sep)%N then [] :: split sep s'
      else match split sep s' with
           | [] => [[c]]
           | t :: ts => (c :: t) :: ts
           end
  end.

(** ** Numbers *)

Inductive number : Type :=
| NaN
| NegInf
| Fin (q : Q)
| PosInf.

Definition num_of_Z (z : Z) : number := Fin (inject_Z z).

(** [a < b], [a <= b], [a === b] on numbers; any comparison with NaN is
    false. *)
Definition num_ltb (a b : number) : bool :=
  match a, b with
  | NaN, _ | _, NaN => false
  | _, NegInf => false
  | NegInf, _ => true
  | PosInf, _ => false
  | Fin _, PosInf => true
  | Fin x, Fin y => negb (Qle_bool y x)
  end.

Definition num_eqb (a b : number) : bool :=
  match a, b with
  | NegInf, NegInf | PosInf, PosInf => true
  | Fin x, Fin y => Qeq_bool x y
  | _, _ => false
  end.

Definition num_leb (a b : number) : bool := num_ltb a b || num_eqb a b.

(** [Math.max(a, b)] and [Math.min(a, b)]: NaN if either argument is. *)
Definition Math_max (a b : number) : number :=
  match a, b with
  | NaN, _ | _, NaN => NaN
  | _, _ => if num_ltb a b then b else a
  end.

Definition Math_min (a b : number) : number :=
  match a, b with
  | NaN, _ | _, NaN => NaN
  | _, _ => if num_ltb b a then b else a
  end.

(** ** Doubles

    The value of a literal, of a numeric string and of an arithmetic
    operation is the exact result rounded to the nearest double (IEEE 754
    binary64: 53 bits of significand, the least exponent of the last bit
    -1074), a tie going to the even significand, and an infinity from
    2^1024 on. *)

(** The integer nearest to [y], the even one of two that are equally near. *)
Definition roundHalfEven (y : Q) : Z :=
  let t := Qfloor y in
  match (y - inject_Z t ?= 1 # 2)%Q with
  | Lt => t
  | Gt => t + 1
  | Eq => if Z.even t then t else t + 1
  end.

(** The exponent of the last bit of the doubles around [x > 0]: 52 below
    the exponent [l] of [x], where [2^l <= x < 2^(l+1)], and -1074 for a
    subnormal [x]. *)
Definition ulpExponent (x : Q) : Z :=
  let k := Z.log2 (Qnum x) - Z.log2 (Zpos (Qden x)) in
  let l := if Qle_bool (2 ^ k) x then k else k - 1 in
  Z.max (l - 52) (-1074).

(** [q] rounded to a significand of 53 bits, with no bound on the exponent
    from above. *)
Definition nearestDouble (q : Q) : Q :=
  let x := Qred q in
  let e := ulpExponent (Qabs x) in
  Qred (inject_Z (roundHalfEven (x / 2 ^ e)) * 2 ^ e).

(** The Number value for [q]. *)
Definition toDouble (q : Q) : number :=
  let r := nearestDouble q in
  if Qle_bool (2 ^ 1024) r then PosInf
  else if Qle_bool r (- 2 ^ 1024) then NegInf
  else Fin r.

(** [a + b] and [a / b] on finite numbers far from the infinities, as the
    scores of the search are: for a result between 0 and 2^53 [toDouble]
    gives this finite value (lemma [toDouble_bounds]). *)
Definition add64 (a b : Q) : Q := nearestDouble (a + b).
Definition div64 (a b : Q) : Q := nearestDouble (a / b).

(** ** Numeric strings: [Number(s)] on a string

    The StringNumericLiteral grammar: optional white space around either
    nothing (the value 0), a signed decimal literal with optional fraction
    and exponent, [Infinity], or an unsigned [0x], [0o] or [0b] integer.
    Anything else is NaN.  The result is the Number value for the
    mathematical value of the literal, correctly rounded whatever the
    number of digits, as the engines compute it:
    ["1.0000000000000000001"] is 1 and ["1e400"] is [Infinity]. *)

Definition digitValue (radix : Z) (c : N) : option Z :=
  let c := Z.of_N c in
  let v := if (48 <=? c) && (c <=? 57) then c - 48
           else if (97 <=? c) && (c <=? 102) then c - 87
           else if (65 <=? c) && (c <=? 70) then c - 55
           else radix in
  if v <? radix then Some v else None.

(** The longest prefix of digits: its value, its length, and the rest. *)
Fixpoint takeDigits (radix : Z) (acc : Z) (n : nat) (s : jsstring) : Z * nat * jsstring :=
  match s with
  | [] => (acc, n, [])
  | c :: s' =>
      match digitValue radix c with
      | Some v => takeDigits radix (radix * acc + v) (S n) s'
      | None => (acc, n, s)
      end
  end.

Definition pow10 (e : Z) : Q :=
  if 0 <=? e then inject_Z (10 ^ e) else / inject_Z (10 ^ (- e)).

(** ExponentPart, applied to the mantissa [m]; the literal must end there. *)
Definition exponentPart (m : Q) (s : jsstring) : number :=
  match s with
  | [] => toDouble m
  | c :: s' =>
      if ((c =? 101) || (c =? 69))%N then
        let '(neg, s'') :=
          match s' with
          | 43%N :: r => (false, r)
          | 45%N :: r => (true, r)
          | _ => (false, s')
          end in
        match takeDigits 10 0 0 s'' with
        | (_, O, _) => NaN
        | (e, S _, []) => toDouble (m * pow10 (if neg then - e else e))
        | (_, S _, _ :: _) => NaN
        end
      else NaN
  end.

(** StrUnsignedDecimalLiteral *)
Definition unsignedDecimal (s : jsstring) : number :=
  if decide (s = units "Infinity") then PosInf
  else
    let '(ip, n1, r1) := takeDigits 10 0 0 s in
    match r1 with
    | 46%N :: r2 =>
        let '(fp, n2, r3) := takeDigits 10 0 0 r2 in
        match n1, n2 with
        | O, O => NaN
        | _, _ => exponentPart (inject_Z ip + inject_Z fp / inject_Z (10 ^ Z.of_nat n2)) r3
        end
    | _ =>
        match n1 with
        | O => NaN
        | S _ => exponentPart (inject_Z ip) r1
        end
    end.

Definition num_neg (x : number) : number :=
  match x with
  | NaN => NaN
  | NegInf => PosInf
  | PosInf => NegInf
  | Fin q => Fin (- q)
  end.

(** NonDecimalIntegerLiteral with the given radix, after its prefix. *)
Definition nonDecimal (radix : Z) (s : jsstring) : number :=
  match takeDigits radix 0 0 s with
  | (v, S _, []) => toDouble (inject_Z v)
  | _ => NaN
  end.

Definition StringToNumber (s : jsstring) : number :=
  match trim s with
  | [] => num_of_Z 0
  | 43%N :: r => unsignedDecimal r
  | 45%N :: r => num_neg (unsignedDecimal r)
  | 48%N :: 120%N :: r | 48%N :: 88%N :: r => nonDecimal 16 r
  | 48%N :: 111%N :: r | 48%N :: 79%N :: r => nonDecimal 8 r
  | 48%N :: 98%N :: r | 48%N :: 66%N :: r => nonDecimal 2 r
  | r => unsignedDecimal r
  end.

(** ** Values held in the data files

    The fields the program reads ([discs], [disc], [albumIndex]) hold the
    primitive values a data file can give them. *)

Inductive value : Type :=
| VUndefined
| VNull
| VBool (b : bool)
| VNumber (n : number)
| VString (s : jsstring).

(** Truthiness, as used by [||] and [!]. *)
Definition truthy (v : value) : bool :=
  match v with
  | VUndefined | VNull => false
  | VBool b => b
  | VNumber NaN => false
  | VNumber (Fin q) => negb (Qeq_bool q 0)
  | VNumber _ => true
  | VString [] => false
  | VString (_ :: _) => true
  end.

(** [a || b] *)
Definition or_else (a b : value) : value := if truthy a then a else b.

(** [Number(v)] *)
Definition Number (v : value) : number :=
  match v with
  | VUndefined => NaN
  | VNull => num_of_Z 0
  | VBool true => num_of_Z 1
  | VBool false => num_of_Z 0
  | VNumber n => n
  | VString s => StringToNumber s
  end.

(** ** Albums and the slot map *)

Definition MAX_SLOTS : Z := 100.

(** An album of [window.albums]; a missing [discs] field reads as
    [undefined].  (The [front] and [back] image paths play no part in the
    slot map.) *)
Record album : Type := Album { discs : value }.

(** [Math.min(2, Math.max(1, Number(albums[i]?.discs || 1)))] *)
Definition clampDiscs (a : album) : number :=
  Math_min (num_of_Z 2)
    (Math_max (num_of_Z 1) (Number (or_else (discs a) (VNumber (num_of_Z 1))))).

Record maps : Type := Maps {
  slot : Z;
  slotToAlbum : list Z;
  albumStartSlot : list Z
}.

(** The inner loop
    [for (let j=0; j<discs && slot<=MAX_SLOTS; j++) slotToAlbum[slot++] = i].
    Every iteration increases [slot], so [MAX_SLOTS + 1 - slot] iterations
    are enough; [fillSlots] is run with that much fuel.  The index written
    is below the length of [slotToAlbum] (the guard [slot <= MAX_SLOTS]),
    so the array never grows. *)
Fixpoint fillSlots_loop (fuel : nat) (d : number) (i j slot : Z) (s2a : list Z)
  : Z * list Z :=
  match fuel with
  | O => (slot, s2a)
  | S fuel' =>
      if num_ltb (num_of_Z j) d && (slot <=? MAX_SLOTS)
      then fillSlots_loop fuel' d i (j + 1) (slot + 1) (<[Z.to_nat slot := i]> s2a)
      else (slot, s2a)
  end.

Definition fillSlots (d : number) (i slot : Z) (s2a : list Z) : Z * list Z :=
  fillSlots_loop (Z.to_nat (MAX_SLOTS + 1 - slot)) d i 0 slot s2a.

(** One iteration of the outer loop, for the album at index [i].  The loop
    runs [i] below [albums.length], the length of [albumStartSlot], so the
    write [albumStartSlot[i] = slot] stays inside the array. *)
Definition placeAlbum (i : nat) (a : album) (m : maps) : maps :=
  let d := clampDiscs a in
  let ass := <[i := slot m]> (albumStartSlot m) in
  let '(slot', s2a) := fillSlots d (Z.of_nat i) (slot m) (slotToAlbum m) in
  Maps slot' s2a ass.

(** The outer loop [for (let i=0; i<albums.length; i++)], from index [i]
    over the albums that remain. *)
Fixpoint placeAlbums (i : nat) (rest : list album) (m : maps) : maps :=
  match rest with
  | [] => m
  | a :: rest' => placeAlbums (S i) rest' (placeAlbum i a m)
  end.

(** The maps before the loop: [new Array(MAX_SLOTS+1).fill(-1)],
    [new Array(albums.length).fill(0)], [slot = 1]. *)
Definition initMaps (albums : list album) : maps :=
  Maps 1 (replicate (Z.to_nat (MAX_SLOTS + 1)) (-1)) (replicate (length albums) 0).

(** The construction.  (The page returns before it when there is no album
    at all; the loop would then leave the initial maps.) *)
Definition computeMaps (albums : list album) : maps :=
  placeAlbums 0 albums (initMaps albums).

(** ** The slot-jump handler *)

Definition isFinite (x : number) : bool :=
  match x with
  | Fin _ => true
  | _ => false
  end.

(** The array index a number denotes as a property key: a finite,
    non-negative integer.  Any other number names no element, and the read
    gives [undefined]. *)
Definition arrayIndex (x : number) : option nat :=
  match x with
  | Fin q =>
      let q' := Qred q in
      if (0 <=? Qnum q') && (Qden q' =? 1)%positive then Some (Z.to_nat (Qnum q')) else None
  | _ => None
  end.

(** [arr[x]]; [None] is [undefined]. *)
Definition arrayGet {A : Type} (arr : list A) (x : number) : option A :=
  i ← arrayIndex x; arr !! i.

(** [parseInt(s, 10)]: leading white space, an optional sign, then the
    longest run of decimal digits, whose value is rounded to a double; NaN
    when there is no digit. *)
Definition parseInt10 (s : jsstring) : number :=
  let '(neg, r) :=
    match trimStart s with
    | 43%N :: r => (false, r)
    | 45%N :: r => (true, r)
    | r => (false, r)
    end in
  match takeDigits 10 0 0 r with
  | (_, O, _) => NaN
  | (v, S _, _) => toDouble (inject_Z (if neg then - v else v))
  end.

(** The body of the click handler once [n] is parsed.  [Some pos] is the
    jump [swiper.slideTo(pos, 0)]; [None] is the rejected input (the red
    border), the outcome for a slot that holds no album. *)
Definition jumpToSlot (slotToAlbum : list Z) (n : number) : option Z :=
  if negb (isFinite n) || num_ltb n (num_of_Z 1) || num_ltb (num_of_Z MAX_SLOTS) n
  then None
  else
    match arrayGet slotToAlbum n with
    | Some pos => if 0 <=? pos then Some pos else None
    | None => None
    end.

Definition goBtn_click (slotToAlbum : list Z) (jump_value : jsstring) : option Z :=
  jumpToSlot slotToAlbum (parseInt10 jump_value).

(** ** Text normalisation *)

(** The parts of [norm] that consult the Unicode tables of the JavaScript
    runtime, which are no part of this repository: [String.prototype.
    toLowerCase], [String.prototype.normalize('NFKD')] and the code points
    with the property [\p{Diacritic}]. *)
Class Builtins : Type := {
  toLowerCase : jsstring → jsstring;
  normalizeNFKD : jsstring → jsstring;
  Diacritic : N → bool
}.

(** The characters [norm] keeps: [a-z], [0-9] and the space. *)
Definition isPlain (c : N) : bool :=
  ((97 <=? c) && (c <=? 122) || (48 <=? c) && (c <=? 57) || (c =? 32))%N.

(** What the proofs use of the runtime: a string of plain characters is
    already in lower case and already decomposed, and no plain character is
    a diacritic. *)
Class BuiltinsSpec (B : Builtins) : Prop := {
  toLowerCase_plain : ∀ s, forallb isPlain s = true → toLowerCase s = s;
  normalizeNFKD_plain : ∀ s, forallb isPlain s = true → normalizeNFKD s = s;
  Diacritic_plain : ∀ c, isPlain c = true → Diacritic c = false
}.

Definition isHighSurrogate (c : N) : bool := ((55296 <=? c) && (c <=? 56319))%N.
Definition isLowSurrogate (c : N) : bool := ((56320 <=? c) && (c <=? 57343))%N.
Definition codePoint (hi lo : N) : N := (65536 + (hi - 55296) * 1024 + (lo - 56320))%N.

Section Search.
Context `{B : Builtins}.

(** [.replace(/\p{Diacritic}/gu, '')]: with the [u] flag the string is read
    by code point, a surrogate pair counting as one. *)
Fixpoint stripDiacritics (s : jsstring) : jsstring :=
  match s with
  | [] => []
  | h :: t =>
      match t with
      | l :: t' =>
          if isHighSurrogate h && isLowSurrogate l then
            if Diacritic (codePoint h l) then stripDiacritics t'
            else h :: l :: stripDiacritics t'
          else if Diacritic h then stripDiacritics t else h :: stripDiacritics t
      | [] => if Diacritic h then [] else [h]
      end
  end.

(** [.replace(/[^a-z0-9 ]/g, ' ')], by code unit. *)
Definition replacePunct (s : jsstring) : jsstring :=
  map (λ c, if isPlain c then c else 32%N) s.

(** [.replace(/\s+/g, ' ')]; [inRun] tells that the previous character
    belonged to the run of white space being replaced. *)
Fixpoint collapse (inRun : bool) (s : jsstring) : jsstring :=
  match s with
  | [] => []
  | c :: s' =>
      if isWhiteSpace c then
        if inRun then collapse true s' else 32%N :: collapse true s'
      else c :: collapse false s'
  end.

Definition collapseSpaces (s : jsstring) : jsstring := collapse false s.

(** [norm(s)] for a string [s] (both callers pass strings, on which
    [String(s || '')] is [s]). *)
Definition norm (s : jsstring) : jsstring :=
  trim (collapseSpaces (replacePunct (stripDiacritics (normalizeNFKD (toLowerCase s))))).

(** ** Scoring *)

(** [new Set(l)]: the elements of [l] in order of first occurrence. *)
Fixpoint Set_addAll (acc l : list jsstring) : list jsstring :=
  match l with
  | [] => acc
  | x :: l' => Set_addAll (if bool_decide (x ∈ acc) then acc else acc ++ [x]) l'
  end.

Definition newSet (l : list jsstring) : list jsstring := Set_addAll [] l.

(** [set.has(t)] *)
Definition Set_has (set : list jsstring) (t : jsstring) : bool := bool_decide (t ∈ set).

(** The score is 0, 3 or a sum of at most three terms between 0 and 1;
    each [+=] and the quotient [inter / union] round their exact result to a
    double.  (The two counts are sizes of sets, whole numbers that are
    doubles; the literals 1, 3 and 0.25 are doubles as well.) *)
Definition fuzzyScore (query candidate : jsstring) : Q :=
  let q := norm query in
  let c := norm candidate in
  if bool_decide (q = []) || bool_decide (c = []) then 0%Q
  else if bool_decide (q = c) then 3%Q
  else
    let score := 0%Q in
    let score := if includes c q || includes q c then add64 score 1 else score in
    let tq := newSet (split 32 q) in
    let tc := newSet (split 32 c) in
    let inter := length (filter (λ t, Set_has tc t = true) tq) in
    let union := match length (newSet (tq ++ tc)) with O => 1%nat | sz => sz end in
    let score := add64 score (div64 (inject_Z (Z.of_nat inter)) (inject_Z (Z.of_nat union))) in
    if startsWith c q then add64 score 0.25 else score.

(** ** Selecting the best song *)

(** An entry of [SONGS] as the loader leaves it: [n] a string,
    [albumIndex] a number, [disc] a number or [null] (here [None]). *)
Record song : Type := Song {
  n : jsstring;
  albumIndex : number;
  disc : option number
}.

(** [a > b] on scores. *)
Definition Qgtb (a b : Q) : bool := negb (Qle_bool a b).

(** The literal [0.15]: the double nearest to 3/20, a little below it. *)
Definition threshold : Q := nearestDouble 0.15.

(** The loop of [findBestSong], carrying [best] and [bestScore]. *)
Fixpoint findBestSong_loop (query : jsstring) (SONGS : list song)
    (best : option song) (bestScore : Q) : option song * Q :=
  match SONGS with
  | [] => (best, bestScore)
  | s :: rest =>
      let sc := fuzzyScore query (n s) in
      if Qgtb sc bestScore then findBestSong_loop query rest (Some s) sc
      else findBestSong_loop query rest best bestScore
  end.

Definition findBestSong (SONGS : list song) (query : jsstring) : option song :=
  let '(best, bestScore) := findBestSong_loop query SONGS None 0%Q in
  if Qgtb bestScore threshold then best else None.


(** The score of a pair that is not an exact match, added as the code adds
    it: the substring term and the token overlap, [baseScore], and then the
    prefix bonus. *)
Definition baseScore (q c : jsstring) : Q :=
  let tq := newSet (split 32 q) in
  let tc := newSet (split 32 c) in
  let inter := length (filter (λ t, Set_has tc t = true) tq) in
  let union := match length (newSet (tq ++ tc)) with O => 1%nat | sz => sz end in
  add64 (if includes c q || includes q c then add64 0 1 else 0)
    (div64 (inject_Z (Z.of_nat inter)) (inject_Z (Z.of_nat union))).

Definition partialScore (q c : jsstring) : Q :=
  if startsWith c q then add64 (baseScore q c) 0.25 else baseScore q c.

(** The maximum of the scores of the catalogue, 0 for an empty one (no
    score is negative). *)
Definition maxScore (query : jsstring) (SONGS : list song) : Q :=
  foldr (λ s acc, Qmax (fuzzyScore query (n s)) acc) 0%Q SONGS.

End Search.

(** ** From a song to its slot *)

Module Res.
Record t : Type := mk { slot : option Z; approx : bool }.
End Res.

(** [computePlatzForSong(song)], reading the globals [albums] and
    [albumStartSlot].  [albums[i]] is an album, hence truthy, exactly when
    [i] names an element of the array. *)
Definition computePlatzForSong (albums : list album) (albumStartSlot : list Z)
    (s : song) : Res.t :=
  let i := albumIndex s in
  match (if num_leb (num_of_Z 0) i then arrayGet albums i else None) with
  | None => Res.mk None false
  | Some a =>
      let start := default 0 (arrayGet albumStartSlot i) in
      let discsCount := clampDiscs a in
      let d := disc s in
      if from_option (λ d, num_eqb d (num_of_Z 1)) false d then Res.mk (Some start) false
      else if from_option (λ d, num_eqb d (num_of_Z 2)) false d then
        if num_leb (num_of_Z 2) discsCount
        then Res.mk (Some (Z.min (start + 1) MAX_SLOTS)) false
        else Res.mk (Some start) true
      else if num_eqb discsCount (num_of_Z 1) then Res.mk (Some start) false
      else Res.mk (Some start) true
  end.

(** ** Predicates used in the proofs *)

(** A non-negative double: a significand of at most 53 bits at an exponent
    of at least -1074. *)
Definition isDouble (b : Q) : Prop :=
  ∃ M E : Z, -1074 ≤ E ∧ 0 ≤ M ≤ 2 ^ 53 ∧ (b == inject_Z M * 2 ^ E)%Q.

(** A clamped disc count is NaN or lies in the closed range [1,2]. *)
Definition clamped (d : number) : Prop :=
  d = NaN ∨ ∃ q, d = Fin q ∧ (1 <= q)%Q ∧ (q <= 2)%Q.

(** The state of the construction when [i] albums of [albums] have been
    placed. *)
Record wf (albums : list album) (i : nat) (m : maps) : Prop := {
  wf_slot : 1 ≤ slot m ≤ MAX_SLOTS + 1;
  wf_length : length (slotToAlbum m) = Z.to_nat (MAX_SLOTS + 1);
  wf_start_length : length (albumStartSlot m) = length albums;
  wf_written : ∀ (k : nat) (v : Z),
    slotToAlbum m !! k = Some v → v ≠ -1 →
    1 ≤ Z.of_nat k < slot m ∧
    ∃ (a : nat) (st : Z),
      v = Z.of_nat a ∧ (a < i)%nat ∧ albumStartSlot m !! a = Some st ∧
      1 ≤ st ∧ slotToAlbum m !! Z.to_nat st = Some v;
  wf_start : ∀ (a : nat) (al : album),
    (a < i)%nat → albums !! a = Some al →
    ∃ st : Z,
      albumStartSlot m !! a = Some st ∧ 1 ≤ st ≤ slot m ∧
      (st ≤ MAX_SLOTS → num_leb (num_of_Z 1) (clampDiscs al) = true →
       st < slot m ∧ slotToAlbum m !! Z.to_nat st = Some (Z.of_nat a))
}.

(** A string that begins with white space. *)
Definition headWS (s : jsstring) : bool :=
  match s with
  | [] => false
  | c :: _ => isWhiteSpace c
  end.

(** No run of white space other than a single space; [inRun] as in
    [collapse]. *)
Fixpoint spaced (inRun : bool) (s : jsstring) : bool :=
  match s with
  | [] => true
  | c :: s' =>
      if isWhiteSpace c then negb inRun && (c =? 32)%N && spaced true s'
      else spaced false s'
  end.

(** ** Sample data *)

(** The runtime on ASCII text: [toLowerCase] maps [A-Z] to [a-z], NFKD
    leaves ASCII alone, and [^] and [`] are the ASCII characters with the
    Diacritic property; the combining marks U+0300 to U+036F are added for
    decomposed input. *)
Definition ascii_builtins : Builtins := {|
  toLowerCase := map (λ c, if ((65 <=? c) && (c <=? 90))%N then (c + 32)%N else c);
  normalizeNFKD := λ s, s;
  Diacritic := λ c, ((c =? 94) || (c =? 96) || (768 <=? c) && (c <=? 879))%N
|}.

Definition album_of_discs (z : Z) : album := Album (VNumber (num_of_Z z)).

(** [[{discs:1},{discs:2},{discs:1}]] *)
Definition albums3 : list album := [album_of_discs 1; album_of_discs 2; album_of_discs 1].

(** Sixty albums of two discs: 120 slots are asked for, 100 exist. *)
Definition albums60 : list album := replicate 60 (album_of_discs 2).

(** An album whose [discs] is the string ["abc"]. *)
Definition album_abc : album := Album (VString (units "abc")).

(** A small catalogue: two entries with the same title after
    normalisation, behind one that shares no word with them. *)
Definition song_let_it_be : song := Song (units "Let It Be") (num_of_Z 0) None.
Definition song_abbey_1 : song := Song (units "Abbey Road") (num_of_Z 1) (Some (num_of_Z 1)).
Definition song_abbey_2 : song := Song (units "ABBEY ROAD!") (num_of_Z 2) None.

(** Two titles with 3 words in common out of 20, neither part of the
    other: the score is 3/20. *)
Definition query_11_words : jsstring := units "a b c d e f g h i j k".
Definition song_12_words : song := Song (units "a b c l m n o p q r s t") (num_of_Z 0) None.

(** ** The slots an album asks for *)

(** The number of iterations the inner loop makes for an album when the
    slots do not run out: the [j] in [0, 1] with [j < discs]. *)
Definition slotsWanted (a : album) : Z :=
  (if num_ltb (num_of_Z 0) (clampDiscs a) then 1 else 0) +
  (if num_ltb (num_of_Z 1) (clampDiscs a) then 1 else 0).

(** The slots asked for by the albums before index [i]. *)
Definition slotsBefore (albums : list album) (i : nat) : Z :=
  foldr (λ a acc, slotsWanted a + acc) 0 (take i albums).

(** The first slot of album [i] in closed form: one past the slots of the
    albums before it, or [MAX_SLOTS + 1] when they are used up. *)
Definition startSlot (albums : list album) (i : nat) : Z :=
  Z.min (1 + slotsBefore albums i) (MAX_SLOTS + 1).

(** ** Integers as text *)

(** The decimal text of an integer, as [String(z)] and a template literal
    give it for the integers the page prints (below 10^21 in size). *)
Definition decimal (z : Z) : jsstring := units (pretty z).

(** ** Labels and the search field *)

(** [a + b] and [a - b] on numbers: the exact sum, rounded. *)
Definition num_add (a b : number) : number :=
  match a, b with
  | NaN, _ | _, NaN => NaN
  | PosInf, NegInf | NegInf, PosInf => NaN
  | PosInf, _ | _, PosInf => PosInf
  | NegInf, _ | _, NegInf => NegInf
  | Fin x, Fin y => toDouble (x + y)
  end.

Definition num_sub (a b : number) : number := num_add a (num_neg b).

(** The text of a number in a template literal or a string concatenation,
    [Number::toString] of the runtime. *)
Class NumberFormat : Type := {
  NumberToString : number → jsstring
}.

(** What the proofs use of it: an integer below 10^21 in size is written in
    decimal digits, and NaN as ["NaN"]. *)
Class NumberFormatSpec (F : NumberFormat) : Prop := {
  NumberToString_integer : ∀ (q : Q) (z : Z),
    (q == inject_Z z)%Q → Z.abs z < 10 ^ 21 → NumberToString (Fin q) = decimal z;
  NumberToString_NaN : NumberToString NaN = units "NaN"
}.

Section Display.
Context `{B : Builtins} `{F : NumberFormat}.

(** [rangeLabel(i)], reading the globals [albums] and [albumStartSlot]; for
    an [i] that names no album [albums[i]?.discs] is [undefined].  The dash
    is U+2013. *)
Definition rangeLabel (albums : list album) (albumStartSlot : list Z) (i : nat) : jsstring :=
  let start := default 0 (albumStartSlot !! i) in
  let discs := clampDiscs (default (Album VUndefined) (albums !! i)) in
  let end_ := Math_min (num_of_Z MAX_SLOTS)
                (num_sub (num_add (num_of_Z start) discs) (num_of_Z 1)) in
  if num_eqb (num_of_Z start) end_ then NumberToString (num_of_Z start)
  else NumberToString (num_of_Z start) ++ [8211%N] ++ NumberToString end_.

(** [showSongPlatz()]: from the text of the search field to the text shown
    beside it.  [!res.slot] holds for [null] and for 0; the sign of
    approximation is U+2248. *)
Definition showSongPlatz (albums : list album) (albumStartSlot : list Z)
    (SONGS : list song) (q : jsstring) : jsstring :=
  if bool_decide (q = []) then []
  else
    match findBestSong SONGS q with
    | None => units "Kein Treffer"
    | Some s =>
        let res := computePlatzForSong albums albumStartSlot s in
        match Res.slot res with
        | None => units "Unbekannt"
        | Some z =>
            if z =? 0 then units "Unbekannt"
            else (if Res.approx res then 8776%N :: units " Platz " else units "Platz ")
                 ++ NumberToString (num_of_Z z)
        end
    end.

End Display.

(** A number format for the sample data: integers in decimal digits; a
    fraction, which the sample data never prints, as numerator and
    denominator. *)
Definition integer_format : NumberFormat := {|
  NumberToString := λ x,
    match x with
    | NaN => units "NaN"
    | PosInf => units "Infinity"
    | NegInf => units "-Infinity"
    | Fin q =>
        let q' := Qred q in
        if (Qden q' =? 1)%positive then decimal (Qnum q')
        else decimal (Qnum q') ++ units "/" ++ decimal (Zpos (Qden q'))
    end
|}.

(** A number that is the integer [z]. *)
Definition isInt (x : number) (z : Z) : Prop := ∃ q : Q, x = Fin q ∧ (q == inject_Z z)%Q.

(** ** Loading [songs.json] *)

(** A value as [r.json()] delivers it.  The fields of an object are kept in
    the order of the text; where a key occurs twice the later one counts. *)
#[local] Unset Elimination Schemes.
Inductive json : Type :=
| JNull
| JBool (b : bool)
| JNumber (x : number)
| JString (s : jsstring)
| JArray (l : list json)
| JObject (fields : list (jsstring * json)).
#[local] Set Elimination Schemes.

(** [x?.key]: the field of an object; [None], that is [undefined], for a
    missing field and for a value that is not an object (none of the keys
    read here is a property of an array, a string, a number or a
    boolean). *)
Fixpoint lookupField (key : jsstring) (fields : list (jsstring * json)) : option json :=
  match fields with
  | [] => None
  | (k, v) :: rest =>
      match lookupField key rest with
      | Some v' => Some v'
      | None => if bool_decide (k = key) then Some v else None
      end
  end.

Definition getField (key : jsstring) (x : json) : option json :=
  match x with
  | JObject fields => lookupField key fields
  | _ => None
  end.

(** [a == null]: [null] or [undefined]. *)
Definition nullish (a : option json) : bool :=
  match a with
  | None | Some JNull => true
  | Some _ => false
  end.

(** [a ?? b] *)
Definition coalesce (a b : option json) : option json := if nullish a then b else a.

(** [parts.join(",")] *)
Fixpoint joinComma (parts : list jsstring) : jsstring :=
  match parts with
  | [] => []
  | [p] => p
  | p :: rest => p ++ 44%N :: joinComma rest
  end.

Section Loader.
Context `{F : NumberFormat}.

(** [String(v)]; [None] is the TypeError of a conversion that fails.  An
    array is its elements joined by commas, [null] among them giving the
    empty text.  An object is ["[object Object]"], unless it has a field
    [toString]: no value of a JSON text can be called, and
    [Object.prototype.valueOf] returns the object, so the conversion finds
    no primitive value and throws. *)
Fixpoint String_json (v : json) : option jsstring :=
  match v with
  | JNull => Some (units "null")
  | JBool true => Some (units "true")
  | JBool false => Some (units "false")
  | JNumber x => Some (NumberToString x)
  | JString s => Some s
  | JArray l =>
      parts ← mapM (λ e, match e with JNull => Some [] | _ => String_json e end) l;
      Some (joinComma parts)
  | JObject fields =>
      match lookupField (units "toString") fields with
      | Some _ => None
      | None => Some (units "[object Object]")
      end
  end.

(** [String(a)] for a value that may be [undefined]. *)
Definition String_opt (a : option json) : option jsstring :=
  match a with
  | None => Some (units "undefined")
  | Some v => String_json v
  end.

(** [Number(v)]: an array or an object is converted through its text, and
    fails where that fails. *)
Definition Number_json (v : json) : option number :=
  match v with
  | JNull => Some (num_of_Z 0)
  | JBool true => Some (num_of_Z 1)
  | JBool false => Some (num_of_Z 0)
  | JNumber x => Some x
  | JString s => Some (StringToNumber s)
  | JArray _ | JObject _ => StringToNumber <$> String_json v
  end.

Definition Number_opt (a : option json) : option number :=
  match a with
  | None => Some NaN
  | Some v => Number_json v
  end.

(** The function mapped over the array: one element of [songs.json] to one
    entry of [SONGS], or the exception of a conversion. *)
Definition loadSong (x : json) : option song :=
  title ← String_opt
             (coalesce (coalesce (getField (units "n") x) (getField (units "title") x))
                       (Some (JString [])));
  index ← Number_opt (coalesce (getField (units "albumIndex") x)
                               (Some (JNumber (num_of_Z (-1)))));
  d ← (if nullish (getField (units "disc") x) then Some None
       else Some <$> Number_opt (getField (units "disc") x));
  Some (Song (trim title) index d).

(** [Array.isArray(d) ? d.map(...) : []], or the exception. *)
Definition loadSongs (d : json) : option (list song) :=
  match d with
  | JArray l => mapM loadSong l
  | _ => Some []
  end.

(** [SONGS] once the request has ended.  [None] as the argument is a
    request or a parse that failed; this and an exception in the mapping
    end in the [catch], which leaves the empty catalogue. *)
Definition fetchSongs (r : option json) : list song :=
  default [] (r ≫= loadSongs).

End Loader.

(** An element of [songs.json] in the schema of the documentation, and
    three elements that are not. *)
Definition json_abbey : json :=
  JObject [(units "title", JString (units " Abbey Road "));
           (units "albumIndex", JNumber (num_of_Z 1));
           (units "disc", JString (units "2"))].
Definition json_catalogue : json :=
  JArray [json_abbey; JNumber (num_of_Z 5); JNull;
          JObject [(units "n", JString (units "Let It Be")); (units "albumIndex", JNull)]].

(** An element whose title is an object with a field [toString]. *)
Definition json_unprintable : json :=
  JObject [(units "n", JObject [(units "toString", JNumber (num_of_Z 1))]);
           (units "albumIndex", JNumber (num_of_Z 0))].

(** * Properties *)

(** ** Numbers *)

Lemma Qle_bool_false (x y : Q) : Qle_bool x y = false ↔ (y < x)%Q.
Proof.
  split.
  - intros H. apply Qnot_le_lt. intros Hle. apply Qle_bool_iff in Hle. congruence.
  - intros H. destruct (Qle_bool x y) eqn:E; [|done].
    apply Qle_bool_iff in E. exfalso. eapply Qlt_not_le; eauto.
Qed.

Lemma num_ltb_Fin (x y : Q) : num_ltb (Fin x) (Fin y) = true ↔ (x < y)%Q.
Proof.
  simpl. rewrite negb_true_iff. apply Qle_bool_false.
Qed.

Lemma num_leb_Fin (x y : Q) : num_leb (Fin x) (Fin y) = true ↔ (x <= y)%Q.
Proof.
  unfold num_leb. rewrite orb_true_iff, num_ltb_Fin. simpl. rewrite Qeq_bool_iff.
  split.
  - intros [H|H]; [by apply Qlt_le_weak | by rewrite H; apply Qle_refl].
  - intros H. apply Qle_lt_or_eq in H. tauto.
Qed.


(** ** Rounding to a double *)

Lemma pow2_pos (e : Z) : (0 < 2 ^ e)%Q.
Proof. apply Qpower_0_lt. reflexivity. Qed.

Lemma pow2_add (a b : Z) : (2 ^ (a + b) == 2 ^ a * 2 ^ b)%Q.
Proof. apply Qpower_plus. discriminate. Qed.

Lemma pow2_le (a b : Z) : a ≤ b → (2 ^ a <= 2 ^ b)%Q.
Proof. intros H. apply Qpower_le_compat_l; [exact H | discriminate]. Qed.

Lemma pow2_Z (a : Z) : 0 ≤ a → (inject_Z (2 ^ a) == 2 ^ a)%Q.
Proof. intros H. apply (Zpower_Qpower 2 a H). Qed.

Lemma pow2_div (x : Q) (e : Z) : (x / 2 ^ e * 2 ^ e == x)%Q.
Proof. field. pose proof (pow2_pos e) as H. intros E. rewrite E in H. discriminate. Qed.

Lemma roundHalfEven_ge (y : Q) (a : Z) : (inject_Z a <= y)%Q → a ≤ roundHalfEven y.
Proof.
  intros H. apply Qfloor_resp_le in H. rewrite Qfloor_Z in H.
  unfold roundHalfEven. destruct (_ ?= _)%Q; try destruct (Z.even _); lia.
Qed.

Lemma roundHalfEven_le (y : Q) (b : Z) : (y <= inject_Z b)%Q → roundHalfEven y ≤ b.
Proof.
  intros H. pose proof (Qfloor_resp_le _ _ H) as Hf. rewrite Qfloor_Z in Hf.
  assert (Hup : (1 # 2 <= y - inject_Z (Qfloor y))%Q → Qfloor y + 1 ≤ b).
  { intros Hh. assert (Hlt : (inject_Z (Qfloor y) < inject_Z b)%Q).
    { apply Qlt_le_trans with y; [|exact H].
      apply Qlt_minus_iff. apply Qlt_le_trans with (1 # 2)%Q; [reflexivity|].
      exact Hh. }
    rewrite <- Zlt_Qlt in Hlt. lia. }
  unfold roundHalfEven. destruct (_ ?= _)%Q eqn:E.
  - apply Qeq_alt in E. destruct (Z.even _); [lia|]. apply Hup. rewrite E. apply Qle_refl.
  - lia.
  - apply Qgt_alt in E. apply Hup. apply Qlt_le_weak. exact E.
Qed.

Lemma ulpExponent_spec (x : Q) :
  (0 < x)%Q →
  -1074 ≤ ulpExponent x ∧
  (x < 2 ^ (ulpExponent x + 53))%Q ∧
  (ulpExponent x = -1074 ∨ (2 ^ (ulpExponent x + 52) <= x)%Q).
Proof.
  intros Hx. destruct x as [n d]. assert (Hn : 0 < n).
  { unfold Qlt in Hx. simpl in Hx. lia. }
  unfold ulpExponent. cbn [Qnum Qden].
  set (a := Z.log2 n). set (b := Z.log2 (Z.pos d)).
  destruct (Z.log2_spec n Hn) as [Ha1 Ha2]. fold a in Ha1, Ha2.
  destruct (Z.log2_spec (Z.pos d) ltac:(lia)) as [Hb1 Hb2]. fold b in Hb1, Hb2.
  assert (Ha0 : 0 ≤ a) by apply Z.log2_nonneg.
  assert (Hb0 : 0 ≤ b) by apply Z.log2_nonneg.
  assert (Hd : (0 < inject_Z (Z.pos d))%Q) by (rewrite <- (Zlt_Qlt 0); lia).
  assert (Hup : (n # d < 2 ^ (a - b + 1))%Q).
  { rewrite (Qmake_Qdiv n d). apply Qlt_shift_div_r; [exact Hd|].
    apply Qlt_le_trans with (2 ^ (a - b + 1) * inject_Z (2 ^ b))%Q.
    - rewrite pow2_Z by lia. rewrite <- pow2_add.
      replace (a - b + 1 + b) with (Z.succ a) by lia.
      rewrite <- pow2_Z by lia. rewrite <- Zlt_Qlt. exact Ha2.
    - apply Qmult_le_l; [apply pow2_pos|]. rewrite <- Zle_Qle. exact Hb1. }
  set (l := if Qle_bool _ _ then _ else _).
  assert (Hl : (2 ^ l <= n # d)%Q ∧ (n # d < 2 ^ (l + 1))%Q).
  { subst l. destruct (Qle_bool _ _) eqn:E.
    - apply Qle_bool_iff in E. split; [exact E | exact Hup].
    - split.
      + rewrite (Qmake_Qdiv n d). apply Qle_shift_div_l; [exact Hd|].
        apply Qle_trans with (2 ^ (a - b - 1) * inject_Z (2 ^ Z.succ b))%Q.
        * apply Qmult_le_l; [apply pow2_pos|]. rewrite <- Zle_Qle. lia.
        * rewrite pow2_Z by lia. rewrite <- pow2_add.
          replace (a - b - 1 + Z.succ b) with a by lia.
          rewrite <- pow2_Z by lia. rewrite <- Zle_Qle. exact Ha1.
      + replace (a - b - 1 + 1) with (a - b) by lia.
        apply Qnot_le_lt. intros H. apply Qle_bool_iff in H. congruence. }
  clearbody l. destruct Hl as [Hl1 Hl2].
  split; [lia|]. split.
  - apply Qlt_le_trans with (2 ^ (l + 1))%Q; [exact Hl2|]. apply pow2_le. lia.
  - destruct (Z.max_spec (l - 52) (-1074)) as [[? ->]|[? ->]]; [left; reflexivity|].
    right. replace (l - 52 + 52) with l by lia. exact Hl1.
Qed.

(** Positive arguments: the value through the exponent and the rounded
    significand. *)
Lemma nearestDouble_pos (q : Q) :
  (0 < q)%Q →
  ∃ (x : Q) (e m : Z),
    (x == q)%Q ∧ e = ulpExponent x ∧ m = roundHalfEven (x / 2 ^ e) ∧
    (nearestDouble q == inject_Z m * 2 ^ e)%Q.
Proof.
  intros Hq. exists (Qred q), (ulpExponent (Qred q)), (roundHalfEven (Qred q / 2 ^ ulpExponent (Qred q))).
  split; [apply Qred_correct|]. split; [reflexivity|]. split; [reflexivity|].
  unfold nearestDouble. rewrite Qred_correct.
  assert (HA : Qabs (Qred q) = Qred q).
  { assert (H : (0 < Qred q)%Q) by (rewrite Qred_correct; exact Hq).
    destruct (Qred q) as [n d]. unfold Qlt in H. simpl in H.
    unfold Qabs. f_equal. lia. }
  rewrite HA. reflexivity.
Qed.

Lemma nearestDouble_proper (x y : Q) : (x == y)%Q → nearestDouble x = nearestDouble y.
Proof. intros H. unfold nearestDouble. rewrite (Qred_complete _ _ H). reflexivity. Qed.

Lemma nearestDouble_0 (q : Q) : (q == 0)%Q → (nearestDouble q == 0)%Q.
Proof. intros H. rewrite (nearestDouble_proper _ _ H). reflexivity. Qed.

Lemma nearestDouble_le (q : Q) (M E : Z) :
  (0 <= q)%Q → -1074 ≤ E → 0 ≤ M ≤ 2 ^ 53 →
  (q <= inject_Z M * 2 ^ E)%Q → (nearestDouble q <= inject_Z M * 2 ^ E)%Q.
Proof.
  intros Hq HE HM Hb.
  destruct (Qlt_le_dec 0 q) as [Hpos|Hz].
  2:{ rewrite nearestDouble_0 by (apply Qle_antisym; assumption).
      apply Qle_trans with q; assumption. }
  destruct (nearestDouble_pos q Hpos) as (x & e & m & Hx & He & Hm & ->).
  assert (Hxpos : (0 < x)%Q) by (rewrite Hx; exact Hpos).
  destruct (ulpExponent_spec x Hxpos) as (He1 & He2 & He3). rewrite <- He in *.
  rewrite <- Hx in Hb. clear Hx Hq Hpos q.
  destruct (Z_le_gt_dec e E) as [HeE|HeE].
  - assert (Hm' : m ≤ M * 2 ^ (E - e)).
    { subst m. apply roundHalfEven_le.
      apply Qle_shift_div_r; [apply pow2_pos|].
      rewrite inject_Z_mult, pow2_Z by lia. rewrite <- Qmult_assoc, <- pow2_add.
      replace (E - e + e) with E by lia. exact Hb. }
    apply Qle_trans with (inject_Z (M * 2 ^ (E - e)) * 2 ^ e)%Q.
    + apply Qmult_le_compat_r; [|apply Qlt_le_weak, pow2_pos].
      rewrite <- Zle_Qle. exact Hm'.
    + rewrite inject_Z_mult, pow2_Z by lia. rewrite <- Qmult_assoc, <- pow2_add.
      replace (E - e + e) with E by lia. apply Qle_refl.
  - destruct He3 as [He3|He3]; [lia|].
    assert (Hchain : (inject_Z M * 2 ^ E <= 2 ^ (e + 52))%Q).
    { apply Qle_trans with (inject_Z (2 ^ 53) * 2 ^ E)%Q.
      - apply Qmult_le_compat_r; [|apply Qlt_le_weak, pow2_pos].
        rewrite <- Zle_Qle. lia.
      - rewrite pow2_Z by lia. rewrite <- pow2_add. apply pow2_le. lia. }
    assert (Hm' : m ≤ 2 ^ 52).
    { subst m. apply roundHalfEven_le.
      apply Qle_shift_div_r; [apply pow2_pos|].
      rewrite pow2_Z by lia. rewrite <- pow2_add.
      replace (52 + e) with (e + 52) by lia.
      apply Qle_trans with (inject_Z M * 2 ^ E)%Q; assumption. }
    apply Qle_trans with (inject_Z (2 ^ 52) * 2 ^ e)%Q.
    + apply Qmult_le_compat_r; [|apply Qlt_le_weak, pow2_pos].
      rewrite <- Zle_Qle. exact Hm'.
    + rewrite pow2_Z by lia. rewrite <- pow2_add.
      replace (52 + e) with (e + 52) by lia.
      apply Qle_trans with x; assumption.
Qed.

Lemma nearestDouble_ge (q : Q) (M E : Z) :
  (0 <= q)%Q → -1074 ≤ E → 0 ≤ M ≤ 2 ^ 53 →
  (inject_Z M * 2 ^ E <= q)%Q → (inject_Z M * 2 ^ E <= nearestDouble q)%Q.
Proof.
  intros Hq HE HM Hb.
  destruct (Qlt_le_dec 0 q) as [Hpos|Hz].
  2:{ rewrite nearestDouble_0 by (apply Qle_antisym; assumption).
      apply Qle_trans with q; assumption. }
  destruct (nearestDouble_pos q Hpos) as (x & e & m & Hx & He & Hm & ->).
  assert (Hxpos : (0 < x)%Q) by (rewrite Hx; exact Hpos).
  destruct (ulpExponent_spec x Hxpos) as (He1 & He2 & He3). rewrite <- He in *.
  rewrite <- Hx in Hb. clear Hx Hq Hpos q.
  destruct (Z_le_gt_dec e E) as [HeE|HeE].
  - assert (Hm' : M * 2 ^ (E - e) ≤ m).
    { subst m. apply roundHalfEven_ge.
      apply Qle_shift_div_l; [apply pow2_pos|].
      rewrite inject_Z_mult, pow2_Z by lia. rewrite <- Qmult_assoc, <- pow2_add.
      replace (E - e + e) with E by lia. exact Hb. }
    apply Qle_trans with (inject_Z (M * 2 ^ (E - e)) * 2 ^ e)%Q.
    + rewrite inject_Z_mult, pow2_Z by lia. rewrite <- Qmult_assoc, <- pow2_add.
      replace (E - e + e) with E by lia. apply Qle_refl.
    + apply Qmult_le_compat_r; [|apply Qlt_le_weak, pow2_pos].
      rewrite <- Zle_Qle. exact Hm'.
  - destruct He3 as [He3|He3]; [lia|].
    assert (Hchain : (inject_Z M * 2 ^ E <= 2 ^ (e + 52))%Q).
    { apply Qle_trans with (inject_Z (2 ^ 53) * 2 ^ E)%Q.
      - apply Qmult_le_compat_r; [|apply Qlt_le_weak, pow2_pos].
        rewrite <- Zle_Qle. lia.
      - rewrite pow2_Z by lia. rewrite <- pow2_add. apply pow2_le. lia. }
    assert (Hm' : 2 ^ 52 ≤ m).
    { subst m. apply roundHalfEven_ge.
      apply Qle_shift_div_l; [apply pow2_pos|].
      rewrite pow2_Z by lia. rewrite <- pow2_add.
      replace (52 + e) with (e + 52) by lia. exact He3. }
    apply Qle_trans with (2 ^ (e + 52))%Q; [exact Hchain|].
    apply Qle_trans with (inject_Z (2 ^ 52) * 2 ^ e)%Q.
    + rewrite pow2_Z by lia. rewrite <- pow2_add.
      replace (52 + e) with (e + 52) by lia. apply Qle_refl.
    + apply Qmult_le_compat_r; [|apply Qlt_le_weak, pow2_pos].
      rewrite <- Zle_Qle. exact Hm'.
Qed.

Lemma isDouble_nonneg (b : Q) : isDouble b → (0 <= b)%Q.
Proof.
  intros (M & E & _ & HM & ->). apply Qmult_le_0_compat.
  - rewrite <- (Zle_Qle 0). lia.
  - apply Qlt_le_weak, pow2_pos.
Qed.

Lemma nearestDouble_exact (b : Q) : isDouble b → (nearestDouble b == b)%Q.
Proof.
  intros Hb. pose proof (isDouble_nonneg b Hb) as H0.
  destruct Hb as (M & E & HE & HM & Hb). apply Qle_antisym.
  - rewrite Hb at 2. apply nearestDouble_le; try assumption. rewrite Hb. apply Qle_refl.
  - rewrite Hb at 1. apply nearestDouble_ge; try assumption. rewrite Hb. apply Qle_refl.
Qed.

Lemma nearestDouble_isDouble (q : Q) : (0 <= q)%Q → isDouble (nearestDouble q).
Proof.
  intros Hq. destruct (Qlt_le_dec 0 q) as [Hpos|Hz].
  2:{ exists 0, 0. split; [lia|]. split; [lia|].
      rewrite nearestDouble_0 by (apply Qle_antisym; assumption). reflexivity. }
  destruct (nearestDouble_pos q Hpos) as (x & e & m & Hx & He & Hm & Hr).
  assert (Hxpos : (0 < x)%Q) by (rewrite Hx; exact Hpos).
  destruct (ulpExponent_spec x Hxpos) as (He1 & He2 & He3). rewrite <- He in *.
  exists m, e. split; [exact He1|]. split; [|exact Hr]. split.
  - subst m. apply roundHalfEven_ge. apply Qle_shift_div_l; [apply pow2_pos|].
    rewrite Qmult_0_l. apply Qlt_le_weak. exact Hxpos.
  - subst m. apply roundHalfEven_le. apply Qle_shift_div_r; [apply pow2_pos|].
    rewrite pow2_Z by lia. rewrite <- pow2_add. replace (53 + e) with (e + 53) by lia.
    apply Qlt_le_weak. exact He2.
Qed.

Lemma nearestDouble_nonneg (q : Q) : (0 <= q)%Q → (0 <= nearestDouble q)%Q.
Proof. intros H. apply isDouble_nonneg, nearestDouble_isDouble, H. Qed.

Lemma nearestDouble_canon (q : Q) : Qred (nearestDouble q) = nearestDouble q.
Proof. unfold nearestDouble. apply Qred_complete, Qred_correct. Qed.

Lemma nearestDouble_idem (q : Q) :
  (0 <= q)%Q → nearestDouble (nearestDouble q) = nearestDouble q.
Proof.
  intros H. etrans; [symmetry; apply nearestDouble_canon|].
  etrans; [|apply nearestDouble_canon].
  apply Qred_complete, nearestDouble_exact, nearestDouble_isDouble, H.
Qed.

Lemma isDouble_Z (z : Z) : 0 ≤ z ≤ 2 ^ 53 → isDouble (inject_Z z).
Proof. intros H. exists z, 0. split; [lia|]. split; [exact H|]. ring. Qed.

(** Rounding does not cross a double. *)
Lemma nearestDouble_between (x lo hi : Q) :
  isDouble lo → isDouble hi → (lo <= x)%Q → (x <= hi)%Q →
  (lo <= nearestDouble x)%Q ∧ (nearestDouble x <= hi)%Q.
Proof.
  intros Hlo Hhi Hl Hh.
  assert (Hx : (0 <= x)%Q) by (apply Qle_trans with lo; [apply isDouble_nonneg, Hlo|exact Hl]).
  destruct Hlo as (M1 & E1 & HE1 & HM1 & Hlo), Hhi as (M2 & E2 & HE2 & HM2 & Hhi).
  rewrite Hlo in Hl |- *. rewrite Hhi in Hh |- *. split.
  - apply nearestDouble_ge; assumption.
  - apply nearestDouble_le; assumption.
Qed.

(** Between two integers of at most 53 bits the rounded value is finite
    and stays between them. *)
Lemma toDouble_bounds (x : Q) (A B : Z) :
  0 ≤ A ≤ 2 ^ 53 → 0 ≤ B ≤ 2 ^ 53 →
  (inject_Z A <= x)%Q → (x <= inject_Z B)%Q →
  toDouble x = Fin (nearestDouble x) ∧
  (inject_Z A <= nearestDouble x)%Q ∧ (nearestDouble x <= inject_Z B)%Q.
Proof.
  intros HA HB Hlo Hhi.
  assert (Hx : (0 <= x)%Q).
  { apply Qle_trans with (inject_Z A); [|exact Hlo]. rewrite <- (Zle_Qle 0). lia. }
  assert (Hl : (inject_Z A <= nearestDouble x)%Q).
  { rewrite <- (Qmult_1_r (inject_Z A)). change 1%Q with (2 ^ 0)%Q.
    apply nearestDouble_ge; [exact Hx|lia|exact HA|].
    change (2 ^ 0)%Q with 1%Q. rewrite Qmult_1_r. exact Hlo. }
  assert (Hh : (nearestDouble x <= inject_Z B)%Q).
  { rewrite <- (Qmult_1_r (inject_Z B)). change 1%Q with (2 ^ 0)%Q.
    apply nearestDouble_le; [exact Hx|lia|exact HB|].
    change (2 ^ 0)%Q with 1%Q. rewrite Qmult_1_r. exact Hhi. }
  split; [|split; assumption].
  unfold toDouble.
  assert (Hlt : (nearestDouble x < 2 ^ 1024)%Q).
  { apply Qle_lt_trans with (inject_Z (2 ^ 53)).
    - apply Qle_trans with (inject_Z B); [exact Hh|]. rewrite <- Zle_Qle. lia.
    - rewrite pow2_Z by lia. apply Qpower_lt_compat_l; [lia|reflexivity]. }
  destruct (Qle_bool (2 ^ 1024) _) eqn:E1.
  { apply Qle_bool_iff in E1. exfalso. exact (Qlt_not_le _ _ Hlt E1). }
  destruct (Qle_bool _ (- 2 ^ 1024)) eqn:E2; [|reflexivity].
  apply Qle_bool_iff in E2. exfalso.
  apply (Qle_not_lt _ _ (Qle_trans _ _ _ (nearestDouble_nonneg x Hx) E2)). reflexivity.
Qed.

(** An integer of at most 53 bits is a double. *)
Lemma toDouble_Z (z : Z) : 0 ≤ z ≤ 2 ^ 53 → toDouble (inject_Z z) = num_of_Z z.
Proof.
  intros Hz.
  destruct (toDouble_bounds (inject_Z z) z z Hz Hz (Qle_refl _) (Qle_refl _)) as (-> & Hl & Hh).
  unfold num_of_Z. f_equal. rewrite <- nearestDouble_canon.
  rewrite (Qred_complete _ (inject_Z z)) by (apply Qle_antisym; assumption).
  apply Qcanon.Qred_identity. apply Z.gcd_1_r.
Qed.

(** From here on the rounding is used through these lemmas, and evaluated
    on given numbers only. *)
#[global] Opaque nearestDouble.

(** ** The disc count *)

Lemma Math_clamp_cases (x : number) :
  clamped (Math_min (num_of_Z 2) (Math_max (num_of_Z 1) x)).
Proof.
  destruct x as [| |q|]; simpl.
  - by left.
  - right. exists 1%Q. simpl. split; [done|]. split; by apply Qle_bool_iff.
  - destruct (Qle_bool q (inject_Z 1)) eqn:E1; simpl.
    + right. exists 1%Q. split; [done|]. split; by apply Qle_bool_iff.
    + apply Qle_bool_false in E1.
      destruct (Qle_bool (inject_Z 2) q) eqn:E2; simpl.
      * right. exists 2%Q. split; [done|]. split; by apply Qle_bool_iff.
      * apply Qle_bool_false in E2. right. exists q.
        split; [done|]. split; by apply Qlt_le_weak.
  - right. exists 2%Q. split; [done|]. split; by apply Qle_bool_iff.
Qed.

Lemma clampDiscs_clamped (a : album) : clamped (clampDiscs a).
Proof. apply Math_clamp_cases. Qed.

(** When the clamp applies: a number that is not NaN ends in [1,2]. *)
Lemma clampDiscs_number (a : album) :
  Number (or_else (discs a) (VNumber (num_of_Z 1))) ≠ NaN →
  ∃ q, clampDiscs a = Fin q ∧ (1 <= q)%Q ∧ (q <= 2)%Q.
Proof.
  intros Hn. destruct (clampDiscs_clamped a) as [H|H]; [|done].
  exfalso. unfold clampDiscs in H.
  destruct (Number _) as [| |q|]; simpl in H; try done.
  - destruct (Qle_bool q (inject_Z 1)); simpl in H; [done|].
    destruct (Qle_bool (inject_Z 2) q); done.
Qed.

(** Below 1 the clamp gives 1, above 2 it gives 2, in between the number
    itself. *)
Lemma clampDiscs_finite (a : album) (q : Q) :
  Number (or_else (discs a) (VNumber (num_of_Z 1))) = Fin q →
  clampDiscs a = Fin (if Qle_bool q 1 then 1 else if Qle_bool 2 q then 2 else q).
Proof.
  intros H. unfold clampDiscs. rewrite H. unfold num_of_Z.
  change (inject_Z 1) with 1%Q. change (inject_Z 2) with 2%Q.
  cbn [Math_max num_ltb]. destruct (Qle_bool q 1); cbn [negb]; [done|].
  cbn [Math_min num_ltb]. by destruct (Qle_bool 2 q).
Qed.

(** ** The inner loop *)

Lemma fillSlots_clamped (d : number) (i slot : Z) (s2a : list Z) :
  clamped d →
  fillSlots d i slot s2a =
    if (slot <=? MAX_SLOTS) && num_ltb (num_of_Z 0) d then
      if (slot + 1 <=? MAX_SLOTS) && num_ltb (num_of_Z 1) d
      then (slot + 2, <[Z.to_nat (slot + 1) := i]> (<[Z.to_nat slot := i]> s2a))
      else (slot + 1, <[Z.to_nat slot := i]> s2a)
    else (slot, s2a).
Proof.
  intros Hd. unfold fillSlots.
  destruct (Z.leb_spec slot MAX_SLOTS) as [Hs|Hs]; cbn [andb].
  2: { replace (Z.to_nat (MAX_SLOTS + 1 - slot)) with 0%nat by lia. done. }
  destruct (Z.to_nat (MAX_SLOTS + 1 - slot)) as [|fuel] eqn:Hf; [lia|].
  cbn [fillSlots_loop]. rewrite (proj2 (Z.leb_le slot MAX_SLOTS) Hs), andb_true_r.
  destruct (num_ltb (num_of_Z 0) d) eqn:H0; [|done].
  replace (0 + 1) with 1 by lia.
  destruct (Z.leb_spec (slot + 1) MAX_SLOTS) as [Hs1|Hs1]; cbn [andb].
  2: { replace fuel with 0%nat by lia. done. }
  destruct fuel as [|fuel]; [lia|]. cbn [fillSlots_loop].
  rewrite (proj2 (Z.leb_le (slot + 1) MAX_SLOTS) Hs1), andb_true_r.
  destruct (num_ltb (num_of_Z 1) d) eqn:H1; [|done].
  replace (slot + 1 + 1) with (slot + 2) by lia.
  assert (num_ltb (num_of_Z (1 + 1)) d = false) as H2.
  { destruct Hd as [->|(q & -> & _ & Hq)]; [done|].
    apply not_true_is_false. intros Hlt. apply num_ltb_Fin in Hlt.
    eapply Qlt_not_le; eauto. }
  destruct fuel as [|fuel]; [done|]. cbn [fillSlots_loop]. by rewrite H2.
Qed.

(** Fuel: the loop stops because its guard fails, never because the fuel
    is used up; more fuel changes nothing. *)
Lemma fillSlots_loop_fuel (fuel : nat) (d : number) (i j slot : Z) (s2a : list Z) :
  (Z.to_nat (MAX_SLOTS + 1 - slot) ≤ fuel)%nat →
  fillSlots_loop fuel d i j slot s2a =
  fillSlots_loop (Z.to_nat (MAX_SLOTS + 1 - slot)) d i j slot s2a.
Proof.
  revert j slot s2a. induction fuel as [|fuel IH]; intros j slot s2a Hf.
  - by replace (Z.to_nat (MAX_SLOTS + 1 - slot)) with 0%nat by lia.
  - destruct (Z.leb_spec slot MAX_SLOTS) as [Hs|Hs].
    + destruct (Z.to_nat (MAX_SLOTS + 1 - slot)) as [|fuel0] eqn:E; [lia|].
      cbn [fillSlots_loop].
      destruct (num_ltb (num_of_Z j) d && (slot <=? MAX_SLOTS)); [|done].
      rewrite IH by lia. f_equal. lia.
    + replace (Z.to_nat (MAX_SLOTS + 1 - slot)) with 0%nat by lia.
      cbn [fillSlots_loop].
      rewrite (proj2 (Z.leb_gt slot MAX_SLOTS)), andb_false_r by lia. done.
Qed.

(** With that much fuel the loop ends where the source's loop ends: in a
    state whose guard [j < discs && slot <= MAX_SLOTS] is false. *)
Lemma fillSlots_loop_exit (fuel : nat) (d : number) (i j slot : Z) (s2a : list Z) :
  (Z.to_nat (MAX_SLOTS + 1 - slot) ≤ fuel)%nat →
  let r := fillSlots_loop fuel d i j slot s2a in
  num_ltb (num_of_Z (j + (r.1 - slot))) d && (r.1 <=? MAX_SLOTS) = false.
Proof.
  revert j slot s2a. induction fuel as [|fuel IH]; intros j slot s2a Hf.
  - cbn. rewrite (proj2 (Z.leb_gt slot MAX_SLOTS)) by lia. apply andb_false_r.
  - cbn [fillSlots_loop].
    destruct (num_ltb (num_of_Z j) d && (slot <=? MAX_SLOTS)) eqn:Hg.
    + apply andb_true_iff in Hg as [_ Hs%Z.leb_le].
      specialize (IH (j + 1) (slot + 1) (<[Z.to_nat slot := i]> s2a)).
      cbn zeta in *.
      destruct (fillSlots_loop fuel d i (j + 1) (slot + 1) _) as [slot' s2a'].
      cbn [fst] in *.
      replace (j + (slot' - slot)) with (j + 1 + (slot' - (slot + 1))) by lia.
      apply IH. lia.
    + cbn [fst]. replace (j + (slot - slot)) with j by lia. done.
Qed.

(** ** The outer loop *)

Lemma placeAlbum_unfold (i : nat) (a : album) (m : maps) :
  placeAlbum i a m =
    let '(slot', s2a) := fillSlots (clampDiscs a) (Z.of_nat i) (slot m) (slotToAlbum m) in
    Maps slot' s2a (<[i := slot m]> (albumStartSlot m)).
Proof. done. Qed.

Lemma placeAlbums_app (i : nat) (done rest : list album) (m : maps) :
  placeAlbums i (done ++ rest) m =
  placeAlbums (i + length done) rest (placeAlbums i done m).
Proof.
  revert i m. induction done as [|a done IH]; intros i m; simpl.
  - by rewrite Nat.add_0_r.
  - rewrite IH. f_equal. lia.
Qed.

(** The loop writes [albumStartSlot] only at the indices it still has to
    visit. *)
Lemma placeAlbums_albumStartSlot_before (i : nat) (rest : list album) (m : maps) (a : nat) :
  (a < i)%nat →
  albumStartSlot (placeAlbums i rest m) !! a = albumStartSlot m !! a.
Proof.
  revert i m. induction rest as [|al rest IH]; intros i m Ha; simpl; [done|].
  rewrite IH by lia. rewrite placeAlbum_unfold.
  destruct (fillSlots _ _ _ _). simpl.
  apply list_lookup_insert_ne. lia.
Qed.

Lemma placeAlbums_albumStartSlot_length (i : nat) (rest : list album) (m : maps) :
  length (albumStartSlot (placeAlbums i rest m)) = length (albumStartSlot m).
Proof.
  revert i m. induction rest as [|al rest IH]; intros i m; simpl; [done|].
  rewrite IH, placeAlbum_unfold. destruct (fillSlots _ _ _ _). simpl.
  apply length_insert.
Qed.

(** Once the cursor is past [MAX_SLOTS] the loop leaves the cursor and the
    forward map alone. *)
Lemma placeAlbums_full (i : nat) (rest : list album) (m : maps) :
  MAX_SLOTS < slot m →
  slot (placeAlbums i rest m) = slot m ∧
  slotToAlbum (placeAlbums i rest m) = slotToAlbum m.
Proof.
  revert i m. induction rest as [|al rest IH]; intros i m Hm; simpl; [done|].
  assert (slot (placeAlbum i al m) = slot m ∧
          slotToAlbum (placeAlbum i al m) = slotToAlbum m) as [Hs Ha].
  { rewrite placeAlbum_unfold, fillSlots_clamped by apply clampDiscs_clamped.
    rewrite (proj2 (Z.leb_gt (slot m) MAX_SLOTS)) by lia. done. }
  destruct (IH (S i) (placeAlbum i al m)) as [IH1 IH2]; [lia|].
  split; congruence.
Qed.


Lemma wf_init (albums : list album) : wf albums 0 (initMaps albums).
Proof.
  split; unfold initMaps; cbn [slot slotToAlbum albumStartSlot].
  - unfold MAX_SLOTS. lia.
  - by rewrite length_replicate.
  - by rewrite length_replicate.
  - intros k v Hk Hv. apply lookup_replicate in Hk as [-> _]. done.
  - intros a al Ha. lia.
Qed.

Lemma clamped_ge1_ltb0 (d : number) :
  clamped d → num_leb (num_of_Z 1) d = true → num_ltb (num_of_Z 0) d = true.
Proof.
  intros [->|(q & -> & Hq & _)] H; [done|].
  apply num_ltb_Fin. eapply Qlt_le_trans; [|exact Hq]. done.
Qed.

Lemma wf_step (albums : list album) (i : nat) (al : album) (m : maps) :
  albums !! i = Some al → wf albums i m → wf albums (S i) (placeAlbum i al m).
Proof.
  intros Hal [Hslot Hlen Hslen Hwr Hst].
  assert (i < length (albumStartSlot m))%nat as Hi
    by (rewrite Hslen; by eapply lookup_lt_Some).
  pose proof (clampDiscs_clamped al) as Hd.
  rewrite placeAlbum_unfold, fillSlots_clamped by done.
  set (d := clampDiscs al) in *.
  set (s := slot m) in *. set (s2a := slotToAlbum m) in *.
  assert (∀ (k : nat) (v : Z), s2a !! k = Some v → v ≠ -1 → Z.of_nat k < s) as Hlt.
  { intros k v H1 H2. destruct (Hwr k v H1 H2) as [? _]. lia. }
  destruct ((s <=? MAX_SLOTS) && num_ltb (num_of_Z 0) d) eqn:Hw.
  2: { (* nothing is written: the cursor is past the end, or [d] is NaN *)
       split; cbn [slot slotToAlbum albumStartSlot]; try done.
       - by rewrite length_insert.
       - intros k v Hk Hv.
         destruct (Hwr k v Hk Hv) as [Hk' (a & st & -> & Ha & Hsa & Hst1 & Hsv)].
         split; [done|]. exists a, st. repeat split; try done; [lia|].
         rewrite list_lookup_insert_ne by lia. done.
       - intros a al' Ha Hal'. destruct (decide (a = i)) as [->|Hne].
         + exists s. rewrite list_lookup_insert_eq by done.
           split; [done|]. split; [lia|]. intros Hm Hge.
           assert (al' = al) as -> by congruence.
           apply clamped_ge1_ltb0 in Hge; [|done]. fold d in Hge.
           rewrite Hge, (proj2 (Z.leb_le s MAX_SLOTS) Hm) in Hw. done.
         + destruct (Hst a al') as (st & H1 & H2 & H3); [lia|done|].
           exists st. rewrite list_lookup_insert_ne by done. done. }
  apply andb_true_iff in Hw as [Hs%Z.leb_le H0].
  assert (Z.to_nat s < length s2a)%nat as Hsl by (rewrite Hlen; lia).
  (* what one write at the cursor preserves *)
  assert (∀ (k : nat) (v : Z), <[Z.to_nat s := Z.of_nat i]> s2a !! k = Some v → v ≠ -1 →
            (k = Z.to_nat s ∧ v = Z.of_nat i) ∨ (k ≠ Z.to_nat s ∧ s2a !! k = Some v)) as Hone.
  { intros k v Hk Hv. destruct (decide (k = Z.to_nat s)) as [->|Hne].
    - rewrite list_lookup_insert_eq in Hk by done. left. split; congruence.
    - rewrite list_lookup_insert_ne in Hk by done. by right. }
  destruct ((s + 1 <=? MAX_SLOTS) && num_ltb (num_of_Z 1) d) eqn:Htwo.
  - apply andb_true_iff in Htwo as [Hs1 _]. apply Z.leb_le in Hs1.
    split; simpl.
    + lia.
    + by rewrite !length_insert.
    + by rewrite length_insert.
    + intros k v Hk Hv.
      assert ((k = Z.to_nat (s + 1) ∧ v = Z.of_nat i) ∨
              (k ≠ Z.to_nat (s + 1) ∧ <[Z.to_nat s := Z.of_nat i]> s2a !! k = Some v)) as [[-> ->]|[Hne Hk']].
      { destruct (decide (k = Z.to_nat (s + 1))) as [->|Hne].
        - rewrite list_lookup_insert_eq in Hk by (rewrite length_insert, Hlen; lia).
          left. split; congruence.
        - rewrite list_lookup_insert_ne in Hk by done. by right. }
      * split; [lia|]. exists i, s. rewrite list_lookup_insert_eq by done.
        repeat split; try done; try lia.
        rewrite list_lookup_insert_ne by lia. by rewrite list_lookup_insert_eq.
      * destruct (Hone k v Hk' Hv) as [[-> ->]|[Hne' Hk'']].
        -- split; [lia|]. exists i, s. rewrite list_lookup_insert_eq by done.
           repeat split; try done; try lia.
        -- destruct (Hwr k v Hk'' Hv) as [Hkr (a & st & -> & Ha & Hsa & Hst1 & Hsv)].
           split; [lia|]. exists a, st.
           rewrite list_lookup_insert_ne by lia.
           repeat split; try done; try lia.
           pose proof (Hlt _ _ Hsv Hv).
           rewrite !list_lookup_insert_ne by lia. done.
    + intros a al' Ha Hal'. destruct (decide (a = i)) as [->|Hne].
      * exists s. rewrite list_lookup_insert_eq by done.
        split; [done|]. split; [lia|]. intros _ _. split; [lia|].
        rewrite list_lookup_insert_ne by lia. by rewrite list_lookup_insert_eq.
      * destruct (Hst a al') as (st & H1 & H2 & H3); [lia|done|].
        exists st. rewrite list_lookup_insert_ne by done.
        split; [done|]. split; [lia|]. intros Hm Hge.
        destruct (H3 Hm Hge) as [H4 H5]. split; [lia|].
        rewrite !list_lookup_insert_ne by lia. done.
  - split; simpl.
    + lia.
    + by rewrite !length_insert.
    + by rewrite length_insert.
    + intros k v Hk Hv.
      destruct (Hone k v Hk Hv) as [[-> ->]|[Hne' Hk'']].
      * split; [lia|]. exists i, s. rewrite list_lookup_insert_eq by done.
        repeat split; try done; try lia.
      * destruct (Hwr k v Hk'' Hv) as [Hkr (a & st & -> & Ha & Hsa & Hst1 & Hsv)].
        split; [lia|]. exists a, st.
        rewrite list_lookup_insert_ne by lia.
        repeat split; try done; try lia.
        pose proof (Hlt _ _ Hsv Hv).
        rewrite !list_lookup_insert_ne by lia. done.
    + intros a al' Ha Hal'. destruct (decide (a = i)) as [->|Hne].
      * exists s. rewrite list_lookup_insert_eq by done.
        split; [done|]. split; [lia|]. intros _ _. split; [lia|].
        by rewrite list_lookup_insert_eq.
      * destruct (Hst a al') as (st & H1 & H2 & H3); [lia|done|].
        exists st. rewrite list_lookup_insert_ne by done.
        split; [done|]. split; [lia|]. intros Hm Hge.
        destruct (H3 Hm Hge) as [H4 H5]. split; [lia|].
        rewrite !list_lookup_insert_ne by lia. done.
Qed.

Lemma wf_placeAlbums (albums done rest : list album) (m : maps) :
  albums = done ++ rest → wf albums (length done) m →
  wf albums (length albums) (placeAlbums (length done) rest m).
Proof.
  revert done m. induction rest as [|al rest IH]; intros done m -> Hm; simpl.
  - by rewrite length_app, Nat.add_0_r.
  - replace (done ++ al :: rest) with ((done ++ [al]) ++ rest) in *
      by (by rewrite <- app_assoc).
    replace (S (length done)) with (length (done ++ [al]))
      by (rewrite length_app; simpl; lia).
    apply IH; [done|].
    rewrite length_app. simpl. rewrite Nat.add_1_r.
    apply wf_step; [|done].
    rewrite <- app_assoc. simpl. by rewrite list_lookup_middle.
Qed.

Lemma wf_computeMaps (albums : list album) :
  wf albums (length albums) (computeMaps albums).
Proof.
  apply (wf_placeAlbums albums [] albums); [done|]. apply wf_init.
Qed.

(** The start slot of album [i] is the value of the cursor when the loop
    reaches [i]. *)
Lemma albumStartSlot_cursor (albums : list album) (i : nat) :
  (i < length albums)%nat →
  albumStartSlot (computeMaps albums) !! i =
  Some (slot (placeAlbums 0 (take i albums) (initMaps albums))).
Proof.
  intros Hi. destruct (lookup_lt_is_Some_2 albums i Hi) as [al Hal].
  unfold computeMaps.
  rewrite <- (take_drop_middle albums i al Hal) at 1.
  rewrite placeAlbums_app. cbn [placeAlbums].
  rewrite placeAlbums_albumStartSlot_before.
  2: { rewrite length_take. lia. }
  rewrite placeAlbum_unfold. destruct (fillSlots _ _ _ _).
  cbn [albumStartSlot]. rewrite Nat.add_0_l, length_take, Nat.min_l by lia.
  apply list_lookup_insert_eq.
  rewrite placeAlbums_albumStartSlot_length. unfold initMaps.
  cbn [albumStartSlot]. by rewrite length_replicate.
Qed.

(** An album that occurs anywhere in the forward map occurs at its start
    slot. *)
Lemma received_slot_start (albums : list album) (i k : nat) :
  slotToAlbum (computeMaps albums) !! k = Some (Z.of_nat i) →
  ∃ st : Z, albumStartSlot (computeMaps albums) !! i = Some st ∧
            slotToAlbum (computeMaps albums) !! Z.to_nat st = Some (Z.of_nat i).
Proof.
  intros Hk. destruct (wf_written _ _ _ (wf_computeMaps albums) k _ Hk) as
    [_ (a & st & Ha & _ & Hst & _ & Hv)]; [lia|].
  apply Nat2Z.inj in Ha as <-. eauto.
Qed.

(** An album whose disc count is NaN leaves the cursor and the forward map
    as they were: it is given no slot. *)
Lemma placeAlbum_NaN (i : nat) (a : album) (m : maps) :
  clampDiscs a = NaN →
  slot (placeAlbum i a m) = slot m ∧ slotToAlbum (placeAlbum i a m) = slotToAlbum m.
Proof.
  intros Hd. rewrite placeAlbum_unfold, fillSlots_clamped by apply clampDiscs_clamped.
  rewrite Hd. cbn [num_ltb]. by rewrite andb_false_r.
Qed.

(** An album whose disc count is a number takes [discs] slots while they
    fit: one when the clamped count is 1, two when it is above 1. *)
Lemma placeAlbum_number (i : nat) (a : album) (m : maps) (q : Q) :
  clampDiscs a = Fin q → slot m ≤ MAX_SLOTS →
  slot (placeAlbum i a m) =
    if Qle_bool q 1 then slot m + 1 else Z.min (slot m + 2) (MAX_SLOTS + 1).
Proof.
  intros Hd Hs. pose proof (clampDiscs_clamped a) as Hc.
  rewrite placeAlbum_unfold, fillSlots_clamped by done.
  rewrite Hd in *. destruct Hc as [?|(q' & [= <-] & Hq1 & Hq2)]; [done|].
  rewrite (proj2 (Z.leb_le _ _) Hs). cbn [andb].
  change (num_of_Z 0) with (Fin 0). change (num_of_Z 1) with (Fin 1).
  rewrite (proj2 (num_ltb_Fin 0 q)) by (eapply Qlt_le_trans; [|exact Hq1]; done).
  cbn [num_ltb].
  destruct (Qle_bool q 1); cbn [negb].
  - by rewrite andb_false_r.
  - rewrite andb_true_r. destruct (Z.leb_spec (slot m + 1) MAX_SLOTS); cbn [slot]; lia.
Qed.

(** The values [discs || 1] makes 1: a missing field, [null], [false],
    [0], [NaN] and the empty string. *)
Lemma clampDiscs_falsy (a : album) :
  truthy (discs a) = false → clampDiscs a = num_of_Z 1.
Proof.
  intros H. unfold clampDiscs, or_else. by rewrite H.
Qed.

(** ** The slot-jump handler *)

Lemma jumpToSlot_None (s2a : list Z) (x : number) :
  jumpToSlot s2a x = None ↔
  isFinite x = false ∨ num_ltb x (num_of_Z 1) = true ∨
  num_ltb (num_of_Z MAX_SLOTS) x = true ∨
  (∀ pos, arrayGet s2a x = Some pos → pos < 0).
Proof.
  unfold jumpToSlot.
  destruct (isFinite x); cbn [negb orb]; [|by intuition].
  destruct (num_ltb x (num_of_Z 1)); cbn [orb]; [by intuition|].
  destruct (num_ltb (num_of_Z MAX_SLOTS) x); cbn [orb]; [by intuition|].
  destruct (arrayGet s2a x) as [pos|].
  - destruct (Z.leb_spec 0 pos).
    + split; [done|]. intros [?|[?|[?|H']]]; try done.
      specialize (H' pos eq_refl). lia.
    + split; [|done]. intros _. do 3 right. intros ? [= <-]. done.
  - split; [|done]. intros _. do 3 right. done.
Qed.

Lemma arrayIndex_of_Z (z : Z) : 0 ≤ z → arrayIndex (num_of_Z z) = Some (Z.to_nat z).
Proof.
  intros Hz. unfold arrayIndex, num_of_Z.
  rewrite Qcanon.Qred_identity by apply Z.gcd_1_r.
  cbn [inject_Z Qnum Qden]. by rewrite (proj2 (Z.leb_le 0 z) Hz).
Qed.

Lemma arrayIndex_nonneg (x : number) (i : nat) :
  arrayIndex x = Some i → num_leb (num_of_Z 0) x = true.
Proof.
  destruct x as [| |q|]; try done. unfold arrayIndex.
  destruct (Z.leb_spec 0 (Qnum (Qred q))) as [H|H]; cbn [andb]; [|done].
  intros _. apply num_leb_Fin. rewrite <- (Qred_correct q).
  unfold Qle. simpl. lia.
Qed.

(** ** Normalisation *)


Lemma trimStart_headWS (s : jsstring) : headWS (trimStart s) = false.
Proof.
  induction s as [|c s IH]; [done|]. simpl.
  destruct (isWhiteSpace c) eqn:E; [done|]. simpl. done.
Qed.

Lemma trimStart_id (s : jsstring) : headWS s = false → trimStart s = s.
Proof. destruct s as [|c s]; [done|]. simpl. by intros ->. Qed.

Lemma trimEnd_headWS (s : jsstring) : headWS s = false → headWS (trimEnd s) = false.
Proof.
  destruct s as [|c s]; [done|]. simpl. intros Hc.
  destruct (trimEnd s); [by rewrite Hc|]. done.
Qed.

Lemma trimEnd_idemp (s : jsstring) : trimEnd (trimEnd s) = trimEnd s.
Proof.
  induction s as [|c s IH]; [done|]. cbn [trimEnd].
  destruct (trimEnd s) as [|x t] eqn:E.
  - destruct (isWhiteSpace c) eqn:Hc; [done|]. simpl. by rewrite Hc.
  - cbn [trimEnd]. cbn [trimEnd] in IH. by rewrite IH.
Qed.

Lemma trim_idemp (s : jsstring) : trim (trim s) = trim s.
Proof.
  unfold trim. rewrite (trimStart_id (trimEnd _)).
  - apply trimEnd_idemp.
  - apply trimEnd_headWS, trimStart_headWS.
Qed.

Lemma trimStart_plain (s : jsstring) :
  forallb isPlain s = true → forallb isPlain (trimStart s) = true.
Proof.
  induction s as [|c s IH]; [done|]. simpl. intros H.
  destruct (isWhiteSpace c); [|done].
  apply andb_true_iff in H as [_ H]. auto.
Qed.

Lemma trimEnd_plain (s : jsstring) :
  forallb isPlain s = true → forallb isPlain (trimEnd s) = true.
Proof.
  induction s as [|c s IH]; [done|]. cbn [trimEnd forallb]. intros H.
  apply andb_true_iff in H as [Hc H]. specialize (IH H).
  destruct (trimEnd s) as [|x t].
  - destruct (isWhiteSpace c); [done|]. simpl. by rewrite Hc.
  - cbn [forallb]. cbn [forallb] in IH. by rewrite Hc, IH.
Qed.

Lemma spaced_weaken (b : bool) (s : jsstring) : spaced b s = true → spaced false s = true.
Proof.
  destruct s as [|c s]; [done|]. simpl.
  destruct (isWhiteSpace c); [|done]. destruct b; [done|]. done.
Qed.

Lemma trimStart_spaced (b : bool) (s : jsstring) :
  spaced b s = true → spaced false (trimStart s) = true.
Proof.
  revert b. induction s as [|c s IH]; intros b; [done|]. cbn [trimStart].
  destruct (isWhiteSpace c) eqn:Hc.
  - cbn [spaced]. rewrite Hc. intros H.
    apply andb_true_iff in H as [_ H]. by apply (IH true).
  - apply spaced_weaken.
Qed.

Lemma trimEnd_spaced (b : bool) (s : jsstring) :
  spaced b s = true → spaced b (trimEnd s) = true.
Proof.
  revert b. induction s as [|c s IH]; intros b; [done|].
  cbn [trimEnd spaced]. intros H.
  destruct (trimEnd s) as [|x t] eqn:E.
  - destruct (isWhiteSpace c) eqn:Hc; [done|]. cbn [spaced]. by rewrite Hc.
  - cbn [spaced]. destruct (isWhiteSpace c) eqn:Hc.
    + apply andb_true_iff in H as [H1 H2]. rewrite H1. by apply (IH true).
    + by apply (IH false).
Qed.

Lemma isWhiteSpace_32 : isWhiteSpace 32 = true.
Proof. done. Qed.

Section Normalisation.
Context `{B : Builtins}.

Lemma collapse_spaced (b : bool) (s : jsstring) : spaced b (collapse b s) = true.
Proof.
  revert b. induction s as [|c s IH]; intros b; [done|]. cbn [collapse].
  destruct (isWhiteSpace c) eqn:Hc.
  - destruct b; [apply IH|]. cbn [spaced]. rewrite isWhiteSpace_32.
    by rewrite IH.
  - cbn [spaced]. rewrite Hc. apply IH.
Qed.

Lemma collapse_id (b : bool) (s : jsstring) : spaced b s = true → collapse b s = s.
Proof.
  revert b. induction s as [|c s IH]; intros b; [done|]. cbn [collapse spaced].
  destruct (isWhiteSpace c) eqn:Hc.
  - intros H. apply andb_true_iff in H as [H H3].
    apply andb_true_iff in H as [H1 H2].
    apply negb_true_iff in H1 as ->. apply N.eqb_eq in H2 as ->.
    by rewrite (IH true).
  - intros H. by rewrite (IH false).
Qed.

Lemma collapse_plain (b : bool) (s : jsstring) :
  forallb isPlain s = true → forallb isPlain (collapse b s) = true.
Proof.
  revert b. induction s as [|c s IH]; intros b; [done|]. cbn [collapse forallb].
  intros H. apply andb_true_iff in H as [Hc H].
  destruct (isWhiteSpace c); [destruct b|]; cbn [forallb]; rewrite ?Hc, ?IH; done.
Qed.

Lemma replacePunct_plain (s : jsstring) : forallb isPlain (replacePunct s) = true.
Proof.
  induction s as [|c s IH]; [done|]. simpl. rewrite IH, andb_true_r.
  destruct (isPlain c) eqn:Hc; done.
Qed.

Lemma replacePunct_id (s : jsstring) : forallb isPlain s = true → replacePunct s = s.
Proof.
  induction s as [|c s IH]; [done|]. simpl. intros H.
  apply andb_true_iff in H as [Hc H]. by rewrite Hc, IH.
Qed.

(** A plain character is a lower-case letter, a digit or the space: at
    most 122. *)
Lemma isPlain_range (c : N) : isPlain c = true → (32 ≤ c ≤ 122)%N.
Proof.
  unfold isPlain. intros H.
  repeat (apply orb_true_iff in H as [H|H]);
    try (apply andb_true_iff in H as [H1%N.leb_le H2%N.leb_le]);
    try (apply N.eqb_eq in H); lia.
Qed.

Lemma isPlain_not_upper (c : N) : isPlain c = true → ¬ (65 ≤ c ≤ 90)%N.
Proof.
  unfold isPlain. intros H.
  repeat (apply orb_true_iff in H as [H|H]);
    try (apply andb_true_iff in H as [H1%N.leb_le H2%N.leb_le]);
    try (apply N.eqb_eq in H); lia.
Qed.

Lemma isPlain_not_surrogate (c : N) : isPlain c = true → isHighSurrogate c = false.
Proof.
  intros H%isPlain_range. unfold isHighSurrogate.
  apply andb_false_iff. left. apply N.leb_gt. lia.
Qed.

Lemma stripDiacritics_id `{!BuiltinsSpec B} (s : jsstring) :
  forallb isPlain s = true → stripDiacritics s = s.
Proof.
  induction s as [|h t IH]; [done|]. intros H.
  cbn [forallb] in H. apply andb_true_iff in H as [Hh Ht].
  specialize (IH Ht). cbn [stripDiacritics].
  rewrite (Diacritic_plain h Hh), (isPlain_not_surrogate h Hh).
  destruct t as [|l t']; [done|]. cbn [andb]. by rewrite IH.
Qed.

(** The shape of every result of [norm]. *)
Lemma norm_plain (s : jsstring) : forallb isPlain (norm s) = true.
Proof.
  unfold norm, trim, collapseSpaces.
  apply trimEnd_plain, trimStart_plain, collapse_plain, replacePunct_plain.
Qed.

Lemma norm_spaced (s : jsstring) : spaced false (norm s) = true.
Proof.
  unfold norm, trim, collapseSpaces.
  apply trimEnd_spaced, (trimStart_spaced false), collapse_spaced.
Qed.

Lemma norm_trimmed (s : jsstring) : trim (norm s) = norm s.
Proof. unfold norm. apply trim_idemp. Qed.

End Normalisation.

(** ** Token sets *)

Lemma Set_addAll_elem (acc l : list jsstring) (x : jsstring) :
  x ∈ Set_addAll acc l ↔ x ∈ acc ∨ x ∈ l.
Proof.
  revert acc. induction l as [|y l IH]; intros acc; cbn [Set_addAll].
  - rewrite elem_of_nil. tauto.
  - rewrite IH, elem_of_cons. case_bool_decide as Hy.
    + split; [tauto|]. intros [?|[->|?]]; tauto.
    + rewrite elem_of_app, list_elem_of_singleton. tauto.
Qed.

Lemma Set_addAll_NoDup (acc l : list jsstring) :
  NoDup acc → NoDup (Set_addAll acc l).
Proof.
  revert acc. induction l as [|y l IH]; intros acc Hacc; cbn [Set_addAll]; [done|].
  apply IH. case_bool_decide as Hy; [done|].
  apply NoDup_app. split; [done|]. split.
  - intros x Hx ->%list_elem_of_singleton. done.
  - apply NoDup_singleton.
Qed.

Lemma newSet_elem (l : list jsstring) (x : jsstring) : x ∈ newSet l ↔ x ∈ l.
Proof. unfold newSet. rewrite Set_addAll_elem, elem_of_nil. tauto. Qed.

Lemma newSet_NoDup (l : list jsstring) : NoDup (newSet l).
Proof. apply Set_addAll_NoDup, NoDup_nil_2. Qed.

(** The intersection counted by [forEach] is no larger than the union. *)
Lemma inter_le_union (tq tc : list jsstring) :
  NoDup tq →
  (length (filter (λ t, Set_has tc t = true) tq) ≤ length (newSet (tq ++ tc)))%nat.
Proof.
  intros Hq. etrans; [apply length_filter|].
  apply submseteq_length, NoDup_submseteq; [done|].
  intros x Hx. apply newSet_elem, elem_of_app. by left.
Qed.

(** ** Scores *)

Lemma Qgtb_true (a b : Q) : Qgtb a b = true ↔ (b < a)%Q.
Proof. unfold Qgtb. rewrite negb_true_iff. apply Qle_bool_false. Qed.

Lemma Qgtb_false (a b : Q) : Qgtb a b = false ↔ (a <= b)%Q.
Proof. unfold Qgtb. rewrite negb_false_iff. apply Qle_bool_iff. Qed.

Lemma jaccard_bounds (inter union : nat) :
  (inter ≤ union)%nat → (1 ≤ union)%nat →
  (0 <= inject_Z (Z.of_nat inter) / inject_Z (Z.of_nat union) <= 1)%Q.
Proof.
  intros Hle H1.
  assert (0 < inject_Z (Z.of_nat union))%Q as Hpos.
  { change 0%Q with (inject_Z 0). rewrite <- Zlt_Qlt. lia. }
  split.
  - apply Qle_shift_div_l; [done|]. rewrite Qmult_0_l.
    change 0%Q with (inject_Z 0). rewrite <- Zle_Qle. lia.
  - apply Qle_shift_div_r; [done|]. rewrite Qmult_1_l.
    rewrite <- Zle_Qle. lia.
Qed.

Section Scoring.
Context `{B : Builtins}.


Lemma Qadd_nonneg (a b : Q) : (0 <= a)%Q → (0 <= b)%Q → (0 <= a + b)%Q.
Proof. intros Ha Hb. apply (Qplus_le_compat 0 a 0 b Ha Hb). Qed.

Lemma add64_0_1 : add64 0 1 = 1%Q.
Proof. by vm_compute. Qed.

Lemma isDouble_0 : isDouble 0.
Proof. apply (isDouble_Z 0). lia. Qed.

Lemma isDouble_1 : isDouble 1.
Proof. apply (isDouble_Z 1). lia. Qed.

Lemma isDouble_2 : isDouble 2.
Proof. apply (isDouble_Z 2). lia. Qed.

Lemma isDouble_2_25 : isDouble 2.25.
Proof. exists 9, (-2). split; [lia|]. split; [lia|]. by vm_compute. Qed.

(** The sum of the substring term and the token overlap lies between the
    substring term and one more. *)
Lemma baseScore_bounds (q c : jsstring) :
  let a := (if includes c q || includes q c then 1 else 0)%Q in
  (a <= baseScore q c <= a + 1)%Q.
Proof.
  unfold baseScore.
  set (tq := newSet (split 32 q)). set (tc := newSet (split 32 c)).
  set (inter := length (filter _ tq)).
  set (union := match length (newSet (tq ++ tc)) with O => 1%nat | sz => sz end).
  assert (inter ≤ union)%nat as Hiu.
  { pose proof (inter_le_union tq tc (newSet_NoDup _)) as H.
    fold inter in H. subst union. destruct (length (newSet (tq ++ tc))); lia. }
  assert (1 ≤ union)%nat as Hu.
  { subst union. destruct (length (newSet (tq ++ tc))); lia. }
  destruct (jaccard_bounds inter union Hiu Hu) as [Hj0 Hj1].
  destruct (nearestDouble_between _ 0 1 isDouble_0 isDouble_1 Hj0 Hj1) as [Hd0 Hd1].
  fold (div64 (inject_Z (Z.of_nat inter)) (inject_Z (Z.of_nat union))) in Hd0, Hd1.
  set (j := div64 _ _) in *. cbn zeta.
  unfold add64 at 1. destruct (includes c q || includes q c).
  - rewrite add64_0_1.
    apply (nearestDouble_between _ 1 (1 + 1)); [apply isDouble_1|apply isDouble_2| |].
    + rewrite <- (Qplus_0_r 1) at 1. by apply Qplus_le_compat; [apply Qle_refl|].
    + by apply Qplus_le_compat; [apply Qle_refl|].
  - apply (nearestDouble_between _ 0 (0 + 1)); [apply isDouble_0|apply isDouble_1| |].
    + rewrite <- (Qplus_0_r 0) at 1. by apply Qplus_le_compat; [apply Qle_refl|].
    + by apply Qplus_le_compat; [apply Qle_refl|].
Qed.

Lemma baseScore_range (q c : jsstring) : (0 <= baseScore q c <= 2)%Q.
Proof.
  pose proof (baseScore_bounds q c) as [H0 H1]. cbn zeta in *.
  destruct (includes c q || includes q c); split.
  - by eapply Qle_trans; [|exact H0].
  - exact H1.
  - exact H0.
  - by eapply Qle_trans; [exact H1|].
Qed.

Lemma partialScore_bounds (q c : jsstring) :
  (0 <= partialScore q c <= 2.25)%Q.
Proof.
  destruct (baseScore_range q c) as [H0 H2]. unfold partialScore.
  destruct (startsWith c q).
  - unfold add64. apply nearestDouble_between; [apply isDouble_0|apply isDouble_2_25| |].
    + by apply Qadd_nonneg.
    + change 2.25%Q with (2 + 0.25)%Q. by apply Qplus_le_compat; [|apply Qle_refl].
  - split; [done|]. by eapply Qle_trans.
Qed.

(** The result of a sum or a quotient is a double, and adding 0 to it
    changes nothing. *)
Lemma nearestDouble_add_0 (x : Q) :
  (0 <= x)%Q → add64 (nearestDouble x) 0 = nearestDouble x.
Proof.
  intros H. unfold add64.
  rewrite (nearestDouble_proper _ (nearestDouble x)) by ring.
  by apply nearestDouble_idem.
Qed.

Lemma baseScore_sum (q c : jsstring) :
  ∃ x : Q, (0 <= x)%Q ∧ baseScore q c = nearestDouble x.
Proof.
  unfold baseScore. cbn zeta. unfold add64 at 1. eexists. split; [|done].
  apply Qadd_nonneg.
  - destruct (_ || _); [by rewrite add64_0_1|done].
  - apply nearestDouble_nonneg, jaccard_bounds.
    + pose proof (inter_le_union (newSet (split 32 q)) (newSet (split 32 c)) (newSet_NoDup _)).
      destruct (length (newSet _)); lia.
    + destruct (length (newSet _)); lia.
Qed.

(** Every score is a double. *)
Lemma partialScore_isDouble (q c : jsstring) : isDouble (partialScore q c).
Proof.
  unfold partialScore. destruct (startsWith c q).
  - apply nearestDouble_isDouble.
    apply Qadd_nonneg; [apply baseScore_range|done].
  - destruct (baseScore_sum q c) as (x & Hx & ->). by apply nearestDouble_isDouble.
Qed.

Lemma fuzzyScore_unfold (query candidate : jsstring) :
  fuzzyScore query candidate =
    if bool_decide (norm query = []) || bool_decide (norm candidate = []) then 0%Q
    else if bool_decide (norm query = norm candidate) then 3%Q
    else partialScore (norm query) (norm candidate).
Proof. reflexivity. Qed.

Lemma fuzzyScore_nonneg (query candidate : jsstring) :
  (0 <= fuzzyScore query candidate)%Q.
Proof.
  rewrite fuzzyScore_unfold.
  destruct (_ || _); [done|]. destruct (bool_decide _); [done|].
  apply partialScore_bounds.
Qed.

Lemma fuzzyScore_isDouble (query candidate : jsstring) :
  isDouble (fuzzyScore query candidate).
Proof.
  rewrite fuzzyScore_unfold.
  destruct (_ || _); [apply isDouble_0|].
  destruct (bool_decide _); [apply (isDouble_Z 3); lia|].
  apply partialScore_isDouble.
Qed.

Lemma threshold_value : threshold = (5404319552844595 # 36028797018963968)%Q.
Proof. by vm_compute. Qed.

(** No double lies above the threshold and at or below 3/20. *)
Lemma threshold_exact (x : Q) : isDouble x → (x <= threshold)%Q ↔ (x <= 0.15)%Q.
Proof.
  intros Hx. split.
  - intros H. eapply Qle_trans; [exact H|]. rewrite threshold_value. done.
  - intros H. unfold threshold.
    apply (nearestDouble_between 0.15 x 1 Hx isDouble_1 H). done.
Qed.

(** ** The best-song loop *)


Lemma findBestSong_loop_spec (query : jsstring) (SONGS : list song)
    (best : option song) (bestScore : Q) :
  let r := findBestSong_loop query SONGS best bestScore in
  (bestScore <= r.2)%Q ∧
  (∀ s, s ∈ SONGS → (fuzzyScore query (n s) <= r.2)%Q) ∧
  ((r = (best, bestScore) ∧ ∀ s, s ∈ SONGS → (fuzzyScore query (n s) <= bestScore)%Q) ∨
   ∃ l1 s l2,
     SONGS = l1 ++ s :: l2 ∧ r = (Some s, fuzzyScore query (n s)) ∧
     (bestScore < fuzzyScore query (n s))%Q ∧
     (∀ x, x ∈ l1 → (fuzzyScore query (n x) < fuzzyScore query (n s))%Q) ∧
     (∀ x, x ∈ l2 → (fuzzyScore query (n x) <= fuzzyScore query (n s))%Q)).
Proof.
  revert best bestScore. induction SONGS as [|s0 rest IH]; intros best bestScore.
  - cbn. split; [apply Qle_refl|]. split; [by intros ? ?%elem_of_nil|].
    left. split; [done|]. by intros ? ?%elem_of_nil.
  - cbn [findBestSong_loop]. destruct (Qgtb (fuzzyScore query (n s0)) bestScore) eqn:E.
    + apply Qgtb_true in E.
      destruct (IH (Some s0) (fuzzyScore query (n s0))) as (H1 & H2 & H3).
      set (r := findBestSong_loop query rest (Some s0) (fuzzyScore query (n s0))) in *.
      cbn zeta. split; [|split].
      * apply Qlt_le_weak. eapply Qlt_le_trans; eauto.
      * intros s [->|Hs]%elem_of_cons; auto.
      * right. destruct H3 as [[Hr Hall]|(l1 & s & l2 & -> & Hr & Hlt & Hl1 & Hl2)].
        -- exists [], s0, rest. split; [done|]. split; [done|]. split; [done|].
           split; [by intros ? ?%elem_of_nil|done].
        -- exists (s0 :: l1), s, l2. split; [done|]. split; [done|].
           split; [by eapply Qlt_trans|]. split; [|done].
           intros x [->|Hx]%elem_of_cons; auto.
    + apply Qgtb_false in E.
      destruct (IH best bestScore) as (H1 & H2 & H3).
      set (r := findBestSong_loop query rest best bestScore) in *.
      cbn zeta. split; [done|]. split.
      * intros s [->|Hs]%elem_of_cons; auto. by eapply Qle_trans.
      * destruct H3 as [[Hr Hall]|(l1 & s & l2 & -> & Hr & Hlt & Hl1 & Hl2)].
        -- left. split; [done|]. intros s [->|Hs]%elem_of_cons; auto.
        -- right. exists (s0 :: l1), s, l2. split; [done|]. split; [done|].
           split; [done|]. split; [|done].
           intros x [->|Hx]%elem_of_cons; auto. by eapply Qle_lt_trans.
Qed.


Lemma maxScore_le (query : jsstring) (SONGS : list song) (t : Q) :
  (maxScore query SONGS <= t)%Q ↔
  (0 <= t)%Q ∧ ∀ s, s ∈ SONGS → (fuzzyScore query (n s) <= t)%Q.
Proof.
  induction SONGS as [|s0 rest IH]; cbn [maxScore foldr].
  - split; [|tauto]. intros H. split; [done|]. by intros ? ?%elem_of_nil.
  - fold (maxScore query rest). rewrite Q.max_lub_iff, IH. split.
    + intros (H0 & Ht & Hall). split; [done|].
      intros s [->|Hs]%elem_of_cons; auto.
    + intros (Ht & Hall). split; [apply Hall; left|].
      split; [done|]. intros s Hs. apply Hall. by right.
Qed.

End Scoring.


Lemma ascii_builtins_spec : BuiltinsSpec ascii_builtins.
Proof.
  split.
  - intros s. cbn [toLowerCase ascii_builtins].
    induction s as [|c s IH]; [done|]. cbn [forallb map]. intros H.
    apply andb_true_iff in H as [Hc H]. rewrite IH by done. f_equal.
    apply isPlain_not_upper in Hc.
    destruct (N.leb_spec 65 c), (N.leb_spec c 90); cbn [andb]; try done. lia.
  - done.
  - intros c Hc. cbn [Diacritic ascii_builtins].
    destruct (N.eqb_spec c 94) as [->|?]; [done|].
    destruct (N.eqb_spec c 96) as [->|?]; [done|].
    apply isPlain_range in Hc. destruct (N.leb_spec 768 c); [lia|done].
Qed.

(** ** The properties stated by the specification *)

(** C1, evaluated where it fails.  The claim: a [discs] that is missing or
    not numeric counts as 1, so that an album whose [discs] is a
    non-numeric string takes exactly one slot.  The code: [Number("abc")]
    is NaN, which [Math.max] and [Math.min] hand on, and [j < NaN] is false
    at [j = 0]; the album is given the start slot 1 and no slot at all, and
    the next album is placed on slot 1 as well. *)
Theorem C1_nonnumeric_discs_takes_no_slot :
  clampDiscs album_abc = NaN ∧
  slot (computeMaps [album_abc]) = 1 ∧
  slotToAlbum (computeMaps [album_abc]) = replicate 101 (-1) ∧
  albumStartSlot (computeMaps [album_abc; album_of_discs 1]) = [1; 1] ∧
  slotToAlbum (computeMaps [album_abc; album_of_discs 1]) !! 1%nat = Some 1.
Proof. vm_compute. done. Qed.

(** C2: in the maps built from any album sequence,
    [slotToAlbum[albumStartSlot[i]] == i] for every album [i] that received
    a slot: one that occurs somewhere in the forward map, or, what the code
    makes of it, one whose start slot is within [1, MAX_SLOTS] and whose
    clamped disc count is at least 1. *)
Theorem C2_start_slot_maps_back (albums : list album) (i : nat) (al : album) (st : Z) :
  albums !! i = Some al →
  albumStartSlot (computeMaps albums) !! i = Some st →
  (∃ k : nat, slotToAlbum (computeMaps albums) !! k = Some (Z.of_nat i)) ∨
  (1 ≤ st ≤ MAX_SLOTS ∧ num_leb (num_of_Z 1) (clampDiscs al) = true) →
  slotToAlbum (computeMaps albums) !! Z.to_nat st = Some (Z.of_nat i).
Proof.
  intros Hal Hst [[k Hk]|[Hr Hd]].
  - destruct (received_slot_start albums i k Hk) as (st' & Hst' & H). congruence.
  - destruct (wf_start _ _ _ (wf_computeMaps albums) i al) as (st' & Hst' & _ & H);
      [by eapply lookup_lt_Some|done|].
    assert (st' = st) as -> by congruence. apply H; [lia|done].
Qed.

Lemma C2_start_slot_maps_back_witness :
  slotToAlbum (computeMaps albums3) !! Z.to_nat 2 = Some (Z.of_nat 1).
Proof.
  apply (C2_start_slot_maps_back albums3 1 (album_of_discs 2) 2).
  - reflexivity.
  - reflexivity.
  - right. split; [unfold MAX_SLOTS; lia | reflexivity].
Defined.

(** C4: once the cursor has passed [MAX_SLOTS], the albums that remain
    write nothing to the forward map; every entry written lies at a slot in
    [1, MAX_SLOTS]; the array keeps its [MAX_SLOTS + 1] cells and the
    construction ends, with the cursor at most [MAX_SLOTS + 1], whatever
    the number of albums: the overflow is cut off, not reported. *)
Theorem C4_no_write_past_MAX_SLOTS (albums : list album) :
  (∀ done rest : list album,
     albums = done ++ rest →
     MAX_SLOTS < slot (placeAlbums 0 done (initMaps albums)) →
     slotToAlbum (computeMaps albums) =
     slotToAlbum (placeAlbums 0 done (initMaps albums))) ∧
  (∀ (k : nat) (v : Z),
     slotToAlbum (computeMaps albums) !! k = Some v → v ≠ -1 →
     1 ≤ Z.of_nat k ≤ MAX_SLOTS) ∧
  length (slotToAlbum (computeMaps albums)) = Z.to_nat (MAX_SLOTS + 1) ∧
  1 ≤ slot (computeMaps albums) ≤ MAX_SLOTS + 1.
Proof.
  pose proof (wf_computeMaps albums) as [Hslot Hlen _ Hwr _].
  split; [|split; [|done]].
  - intros done rest -> Hfull. unfold computeMaps.
    rewrite placeAlbums_app. by apply placeAlbums_full.
  - intros k v Hk Hv. destruct (Hwr k v Hk Hv) as [? _]. lia.
Qed.

(** C9: on the forward map built from any album sequence, the slot jump
    is rejected, with no exception possible, for a number that is not
    finite, is below 1, is above [MAX_SLOTS], or names a slot that holds
    no album; slots 0 and 101 are rejected, also when typed into the
    field. *)
Theorem C9_jump_unassigned (albums : list album) :
  let s2a := slotToAlbum (computeMaps albums) in
  (∀ x : number,
     isFinite x = false ∨ num_ltb x (num_of_Z 1) = true ∨
     num_ltb (num_of_Z MAX_SLOTS) x = true ∨
     (∀ a : nat, arrayGet s2a x ≠ Some (Z.of_nat a)) →
     jumpToSlot s2a x = None) ∧
  jumpToSlot s2a (num_of_Z 0) = None ∧
  jumpToSlot s2a (num_of_Z 101) = None ∧
  goBtn_click s2a (units "0") = None ∧
  goBtn_click s2a (units "101") = None.
Proof.
  intros s2a. split; [|by repeat split].
  intros x Hx. apply jumpToSlot_None.
  destruct Hx as [?|[?|[?|Hx]]]; auto. do 3 right.
  intros pos Hpos. destruct (decide (pos = -1)) as [->|Hne]; [lia|].
  pose proof Hpos as Hpos'. unfold arrayGet in Hpos'.
  destruct (arrayIndex x) as [k|]; [|done]. cbn in Hpos'.
  destruct (wf_written _ _ _ (wf_computeMaps albums) k pos Hpos' Hne)
    as [_ (a & _ & -> & _)].
  by destruct (Hx a).
Qed.

(** C10: the constructor gives every album the value of the cursor as its
    start slot, so no entry of [albumStartSlot] stays at the initial 0:
    each is at least 1, also for the albums past [MAX_SLOTS]; hence a song
    whose [albumIndex] names an album resolves to a slot number, at least
    1, never to the [null] slot. *)
Theorem C10_albumStartSlot_positive (albums : list album) (i : nat) :
  (i < length albums)%nat →
  ∃ st : Z,
    albumStartSlot (computeMaps albums) !! i = Some st ∧
    st = slot (placeAlbums 0 (take i albums) (initMaps albums)) ∧
    1 ≤ st ∧
    ∀ s : song, arrayIndex (albumIndex s) = Some i →
      ∃ z : Z,
        Res.slot (computePlatzForSong albums (albumStartSlot (computeMaps albums)) s) = Some z ∧
        1 ≤ z.
Proof.
  intros Hi.
  destruct (lookup_lt_is_Some_2 albums i Hi) as [al Hal].
  destruct (wf_start _ _ _ (wf_computeMaps albums) i al Hi Hal) as (st & Hst & [Hst1 _] & _).
  exists st. split; [done|]. split.
  { rewrite albumStartSlot_cursor in Hst by done. congruence. }
  split; [done|].
  intros s Hs. unfold computePlatzForSong.
  rewrite (arrayIndex_nonneg _ _ Hs). unfold arrayGet. rewrite Hs. cbn [mbind option_bind].
  rewrite Hal, Hst. cbn [default].
  repeat match goal with |- context [if ?b then _ else _] => destruct b end;
    cbn [Res.slot]; eexists; (split; [done|]); unfold MAX_SLOTS, id; lia.
Qed.

Lemma C10_albumStartSlot_positive_witness :
  ∃ st : Z,
    albumStartSlot (computeMaps albums60) !! 59%nat = Some st ∧
    st = slot (placeAlbums 0 (take 59 albums60) (initMaps albums60)) ∧
    1 ≤ st ∧
    ∀ s : song, arrayIndex (albumIndex s) = Some 59%nat →
      ∃ z : Z,
        Res.slot (computePlatzForSong albums60 (albumStartSlot (computeMaps albums60)) s) = Some z ∧
        1 ≤ z.
Proof.
  apply (C10_albumStartSlot_positive albums60 59). vm_compute. lia.
Defined.

Lemma num_eqb_2_not_1 (d : number) :
  num_eqb d (num_of_Z 2) = true → num_eqb d (num_of_Z 1) = false.
Proof.
  destruct d as [| |q|]; try done. cbn [num_eqb num_of_Z].
  intros H%Qeq_bool_iff. apply not_true_is_false. intros H'%Qeq_bool_iff.
  rewrite H in H'. done.
Qed.

(** C5: for a song with [disc === 2] whose [albumIndex] names album [i],
    the result is [(min(albumStartSlot[i] + 1, MAX_SLOTS), false)] when the
    clamped disc count of the album is at least 2, and
    [(albumStartSlot[i], true)] otherwise. *)
Theorem C5_disc2_resolution (albums : list album) (s : song) (i : nat)
    (al : album) (st : Z) (d : number) :
  arrayIndex (albumIndex s) = Some i →
  albums !! i = Some al →
  albumStartSlot (computeMaps albums) !! i = Some st →
  disc s = Some d → num_eqb d (num_of_Z 2) = true →
  computePlatzForSong albums (albumStartSlot (computeMaps albums)) s =
    if num_leb (num_of_Z 2) (clampDiscs al)
    then Res.mk (Some (Z.min (st + 1) MAX_SLOTS)) false
    else Res.mk (Some st) true.
Proof.
  intros Hi Hal Hst Hd H2. unfold computePlatzForSong.
  rewrite (arrayIndex_nonneg _ _ Hi). unfold arrayGet. rewrite Hi.
  cbn [mbind option_bind]. rewrite Hal, Hst, Hd. cbn [default from_option].
  by rewrite (num_eqb_2_not_1 d H2), H2.
Qed.

Lemma C5_disc2_resolution_witness :
  computePlatzForSong albums3 (albumStartSlot (computeMaps albums3))
    (Song (units "Come Together") (num_of_Z 1) (Some (num_of_Z 2))) =
  Res.mk (Some 3) false ∧
  computePlatzForSong albums3 (albumStartSlot (computeMaps albums3))
    (Song (units "Come Together") (num_of_Z 2) (Some (num_of_Z 2))) =
  Res.mk (Some 4) true.
Proof.
  split.
  - apply (C5_disc2_resolution albums3 _ 1 (album_of_discs 2) 2 (num_of_Z 2));
      reflexivity.
  - apply (C5_disc2_resolution albums3 _ 2 (album_of_discs 1) 4 (num_of_Z 2));
      reflexivity.
Defined.

Section SearchClaims.
Context `{B : Builtins}.

(** C3: [fuzzyScore] is 3 exactly when the two normalised strings are
    equal and not empty; any other score is at most 2.25, the sum of the
    three partial contributions at their largest, and so below 3. *)
Theorem C3_exact_match_score (query candidate : jsstring) :
  ((fuzzyScore query candidate == 3)%Q ↔
   norm query = norm candidate ∧ norm query ≠ [] ∧ norm candidate ≠ []) ∧
  ((fuzzyScore query candidate == 3)%Q ∨
   (0 <= fuzzyScore query candidate <= 2.25)%Q ∧ (fuzzyScore query candidate < 3)%Q).
Proof.
  pose proof (fuzzyScore_unfold query candidate) as Hu.
  pose proof (partialScore_bounds (norm query) (norm candidate)) as [Hp0 Hp1].
  destruct (decide (norm query = [])) as [Hq|Hq].
  { rewrite bool_decide_eq_true_2 in Hu by done. cbn [orb] in Hu.
    rewrite Hu. split; [|by right]. split; [done|]. by intros (_ & ? & _). }
  destruct (decide (norm candidate = [])) as [Hc|Hc].
  { rewrite (bool_decide_eq_true_2 (norm candidate = [])), orb_true_r in Hu by done.
    rewrite Hu. split; [|by right]. split; [done|]. by intros (_ & _ & ?). }
  rewrite !bool_decide_eq_false_2 in Hu by done. cbn [orb] in Hu.
  destruct (decide (norm query = norm candidate)) as [He|He].
  - rewrite bool_decide_eq_true_2 in Hu by done. rewrite Hu. split; [|by left]. done.
  - rewrite bool_decide_eq_false_2 in Hu by done. rewrite Hu.
    assert (partialScore (norm query) (norm candidate) < 3)%Q as Hlt
      by (eapply Qle_lt_trans; [exact Hp1|done]).
    split; [|by right]. split; [|by intros [? _]].
    intros H3. rewrite H3 in Hlt. done.
Qed.

Lemma findBestSong_None (SONGS : list song) (query : jsstring) :
  findBestSong SONGS query = None ↔
  ∀ s, s ∈ SONGS → (fuzzyScore query (n s) <= threshold)%Q.
Proof.
  unfold findBestSong.
  destruct (findBestSong_loop_spec query SONGS None 0%Q) as (H1 & H2 & H3).
  destruct (findBestSong_loop query SONGS None 0%Q) as [best bs].
  cbn [snd] in *. destruct (Qgtb bs threshold) eqn:E.
  - apply Qgtb_true in E.
    destruct H3 as [[[= -> ->] _]|(l1 & s & l2 & -> & [= -> ->] & _)];
      [by rewrite threshold_value in E|].
    split; [done|]. intros Hall. exfalso.
    eapply Qlt_not_le; [exact E|]. apply Hall, elem_of_app. right. by left.
  - apply Qgtb_false in E. split; [|done]. intros _ s Hs.
    eapply Qle_trans; [by apply H2|done].
Qed.

Lemma maxScore_isDouble (query : jsstring) (SONGS : list song) :
  isDouble (maxScore query SONGS).
Proof.
  induction SONGS as [|s0 rest IH]; cbn [maxScore foldr]; [apply isDouble_0|].
  fold (maxScore query rest).
  destruct (Q.max_spec (fuzzyScore query (n s0)) (maxScore query rest)) as [[_ H]|[_ H]].
  - destruct IH as (M & E & HE & HM & Hb). exists M, E. by rewrite H.
  - destruct (fuzzyScore_isDouble query (n s0)) as (M & E & HE & HM & Hb).
    exists M, E. by rewrite H.
Qed.

(** C6: [findBestSong] gives [null] exactly when the largest score in the
    catalogue is at most 0.15.  The [0.15] of the comparison is the double
    nearest to 3/20, [threshold]; no score lies between the two, so "at
    most [threshold]" and "at most 3/20" say the same of a score.  A
    catalogue of one entry that scores exactly [threshold] gives [null], one
    whose entry scores above it gives that entry. *)
Theorem C6_threshold (SONGS : list song) (query : jsstring) :
  (findBestSong SONGS query = None ↔ (maxScore query SONGS <= 0.15)%Q) ∧
  (findBestSong SONGS query = None ↔ (maxScore query SONGS <= threshold)%Q) ∧
  (∀ s : song, (fuzzyScore query (n s) == threshold)%Q → findBestSong [s] query = None) ∧
  (∀ s : song, (fuzzyScore query (n s) == 0.15)%Q → findBestSong [s] query = None) ∧
  (∀ s : song, (threshold < fuzzyScore query (n s))%Q → findBestSong [s] query = Some s) ∧
  (∀ s : song, (0.15 < fuzzyScore query (n s))%Q → findBestSong [s] query = Some s).
Proof.
  assert (findBestSong SONGS query = None ↔ (maxScore query SONGS <= threshold)%Q) as H1.
  { rewrite findBestSong_None, maxScore_le. split; [|by intros [_ ?]].
    intros H. split; [by rewrite threshold_value|done]. }
  assert (∀ s : song, (threshold < fuzzyScore query (n s))%Q →
                      findBestSong [s] query = Some s) as H2.
  { intros s Hs. unfold findBestSong. cbn [findBestSong_loop].
    assert (Qgtb (fuzzyScore query (n s)) 0 = true) as ->.
    { apply Qgtb_true. eapply Qlt_trans; [|exact Hs]. by rewrite threshold_value. }
    by rewrite (proj2 (Qgtb_true _ _) Hs). }
  assert (∀ s : song, (fuzzyScore query (n s) <= threshold)%Q →
                      findBestSong [s] query = None) as H3.
  { intros s Hs. apply findBestSong_None. by intros s' ->%list_elem_of_singleton. }
  split; [|split; [done|split; [|split; [|split; [done|]]]]].
  - rewrite H1. apply threshold_exact, maxScore_isDouble.
  - intros s Hs. apply H3. rewrite Hs. apply Qle_refl.
  - intros s Hs. apply H3, threshold_exact; [apply fuzzyScore_isDouble|].
    rewrite Hs. apply Qle_refl.
  - intros s Hs. apply H2. eapply Qle_lt_trans; [|exact Hs]. by rewrite threshold_value.
Qed.

(** C7: when several entries reach the largest score, [findBestSong]
    gives the first of them in catalogue order: an entry all of whose
    predecessors score strictly less and none of whose successors scores
    more is the result (provided its score passes the threshold), so a
    later entry with an equal or lower score never takes its place.  The
    scores compared are the doubles the code computes. *)
Theorem C7_first_maximum_wins (query : jsstring) (l1 l2 : list song) (s : song) :
  (∀ x, x ∈ l1 → (fuzzyScore query (n x) < fuzzyScore query (n s))%Q) →
  (∀ x, x ∈ l2 → (fuzzyScore query (n x) <= fuzzyScore query (n s))%Q) →
  (threshold < fuzzyScore query (n s))%Q →
  findBestSong (l1 ++ s :: l2) query = Some s.
Proof.
  intros Hl1 Hl2 Hs. unfold findBestSong.
  destruct (findBestSong_loop_spec query (l1 ++ s :: l2) None 0%Q) as (H1 & H2 & H3).
  destruct (findBestSong_loop query (l1 ++ s :: l2) None 0%Q) as [best bs].
  cbn [snd] in *.
  assert (fuzzyScore query (n s) <= bs)%Q as Hbs
    by (apply H2, elem_of_app; right; by left).
  rewrite (proj2 (Qgtb_true bs threshold)) by (by eapply Qlt_le_trans).
  destruct H3 as [[[= -> ->] _]|(k1 & s' & k2 & Heq & [= -> ->] & _ & Hk1 & Hk2)].
  { exfalso. eapply Qlt_not_le; [|exact Hbs]. eapply Qlt_trans; [|exact Hs].
    by rewrite threshold_value. }
  f_equal.
  (* both [s] and [s'] are first among the maxima: they sit at the same place *)
  assert (length k1 = length l1) as Hlen.
  { destruct (Nat.lt_trichotomy (length k1) (length l1)) as [Hlt|[?|Hlt]]; [|done|].
    - exfalso. assert (s' ∈ l1) as Hin.
      { apply list_elem_of_lookup. exists (length k1).
        assert ((l1 ++ s :: l2) !! length k1 = Some s') as Hlk
          by (rewrite Heq; apply list_lookup_middle; done).
        by rewrite lookup_app_l in Hlk. }
      eapply Qlt_not_le; [apply (Hl1 _ Hin)|done].
    - exfalso. assert (s ∈ k1) as Hin.
      { apply list_elem_of_lookup. exists (length l1).
        assert ((k1 ++ s' :: k2) !! length l1 = Some s) as Hlk
          by (rewrite <- Heq; apply list_lookup_middle; done).
        by rewrite lookup_app_l in Hlk. }
      assert (s' ∈ l2) as Hin'.
      { assert ((l1 ++ s :: l2) !! length k1 = Some s') as Hlk
          by (rewrite Heq; apply list_lookup_middle; done).
        rewrite lookup_app_r in Hlk by lia.
        destruct (length k1 - length l1)%nat as [|m] eqn:Em; [lia|].
        apply list_elem_of_lookup. by exists m. }
      eapply Qlt_not_le; [apply (Hk1 _ Hin)|by apply Hl2]. }
  assert ((l1 ++ s :: l2) !! length l1 = Some s) as Ha by (by apply list_lookup_middle).
  assert ((k1 ++ s' :: k2) !! length l1 = Some s') as Hb by (by apply list_lookup_middle).
  rewrite <- Heq in Hb.
  congruence.
Qed.

(** C8: [norm] is idempotent, for a runtime whose [toLowerCase] and NFKD
    leave strings over [a-z0-9 ] as they are and which counts none of these
    characters as a diacritic. *)
Theorem C8_norm_idempotent `{!BuiltinsSpec B} (s : jsstring) :
  norm (norm s) = norm s.
Proof.
  pose proof (norm_plain s) as Hp. pose proof (norm_spaced s) as Hs.
  pose proof (norm_trimmed s) as Ht.
  set (t := norm s) in *. unfold norm at 1.
  rewrite (toLowerCase_plain t Hp), (normalizeNFKD_plain t Hp).
  rewrite (stripDiacritics_id t Hp), (replacePunct_id t Hp).
  unfold collapseSpaces. by rewrite (collapse_id false t Hs).
Qed.

End SearchClaims.

Lemma C7_first_maximum_wins_witness :
  @findBestSong ascii_builtins ([song_let_it_be] ++ song_abbey_1 :: [song_abbey_2])
    (units "abbey road") = Some song_abbey_1.
Proof.
  apply (@C7_first_maximum_wins ascii_builtins).
  - intros x ->%list_elem_of_singleton. by vm_compute.
  - intros x ->%list_elem_of_singleton. by vm_compute.
  - by vm_compute.
Defined.

Lemma C8_norm_idempotent_witness :
  @norm ascii_builtins (@norm ascii_builtins (units "  Abbey  Road!! ")) =
  @norm ascii_builtins (units "  Abbey  Road!! ").
Proof.
  apply (@C8_norm_idempotent ascii_builtins ascii_builtins_spec).
Defined.

(** ** The scenarios of the specification *)

(** Three albums of 1, 2 and 1 discs: start slots 1, 2, 4 and slots 1 to
    4 holding albums 0, 1, 1, 2. *)
Example scenario_three_albums :
  albumStartSlot (computeMaps albums3) = [1; 2; 4] ∧
  take 6 (slotToAlbum (computeMaps albums3)) = [-1; 0; 1; 1; 2; -1].
Proof. by vm_compute. Qed.

(** ["abby road"] against ["Abbey Road"]: one word of three in common, the
    score, the double nearest to 1/3, passes the threshold, and disc 1 of
    album 1 is slot 2. *)
Example scenario_abby_road :
  @fuzzyScore ascii_builtins (units "abby road") (units "Abbey Road") = div64 1 3 ∧
  div64 1 3 = (6004799503160661 # 18014398509481984)%Q ∧
  @findBestSong ascii_builtins [song_abbey_1] (units "abby road") = Some song_abbey_1 ∧
  computePlatzForSong albums3 (albumStartSlot (computeMaps albums3)) song_abbey_1 =
    Res.mk (Some 2) false.
Proof. by vm_compute. Qed.

(** A score of exactly 0.15, the double that [3 / 20] and the literal
    [0.15] both give, does not pass the threshold. *)
Example scenario_threshold :
  @fuzzyScore ascii_builtins query_11_words (n song_12_words) = div64 3 20 ∧
  div64 3 20 = threshold ∧
  @findBestSong ascii_builtins [song_12_words] query_11_words = None.
Proof. by vm_compute. Qed.

(** An [albumIndex] past the end of the albums gives the [null] slot. *)
Example scenario_unknown_album :
  computePlatzForSong albums3 (albumStartSlot (computeMaps albums3))
    (Song (units "x") (num_of_Z 50) None) = Res.mk None false.
Proof. by vm_compute. Qed.

(** On the three albums slot 3 leads to album 1 and slot 5, which holds
    nothing, is rejected. *)
Example scenario_slot_jump :
  goBtn_click (slotToAlbum (computeMaps albums3)) (units "3") = Some 1 ∧
  goBtn_click (slotToAlbum (computeMaps albums3)) (units "5") = None ∧
  goBtn_click (slotToAlbum (computeMaps albums3)) (units "x") = None.
Proof. by vm_compute. Qed.

(** Sixty albums of two discs: the fifty-first and every later one start
    at 101, beyond the last slot, and hold no slot. *)
Example scenario_overflow :
  slot (computeMaps albums60) = 101 ∧
  albumStartSlot (computeMaps albums60) !! 49%nat = Some 99 ∧
  albumStartSlot (computeMaps albums60) !! 50%nat = Some 101 ∧
  albumStartSlot (computeMaps albums60) !! 59%nat = Some 101 ∧
  slotToAlbum (computeMaps albums60) !! 100%nat = Some 49.
Proof. by vm_compute. Qed.

(** * Further properties of the slot map *)

Lemma slotsWanted_range (a : album) : 0 ≤ slotsWanted a ≤ 2.
Proof. unfold slotsWanted. repeat case_match; lia. Qed.

Lemma num_ltb_1_0 (d : number) :
  num_ltb (num_of_Z 1) d = true → num_ltb (num_of_Z 0) d = true.
Proof.
  destruct d as [| |q|]; try done.
  change (num_of_Z 1) with (Fin 1). change (num_of_Z 0) with (Fin 0).
  rewrite !num_ltb_Fin. intros H. eapply Qlt_trans; [|exact H]. done.
Qed.

(** One album: where the cursor ends and what the forward map holds. *)
Lemma placeAlbum_cursor (i : nat) (a : album) (m : maps) :
  1 ≤ slot m ≤ MAX_SLOTS + 1 →
  slot (placeAlbum i a m) = Z.min (slot m + slotsWanted a) (MAX_SLOTS + 1).
Proof.
  intros Hs. rewrite placeAlbum_unfold, fillSlots_clamped by apply clampDiscs_clamped.
  unfold slotsWanted.
  destruct (num_ltb (num_of_Z 1) (clampDiscs a)) eqn:H1.
  - rewrite (num_ltb_1_0 _ H1), !andb_true_r.
    destruct (Z.leb_spec (slot m) MAX_SLOTS); [|cbn [slot]; lia].
    destruct (Z.leb_spec (slot m + 1) MAX_SLOTS); cbn [slot]; lia.
  - rewrite andb_false_r.
    destruct (num_ltb (num_of_Z 0) (clampDiscs a)).
    + rewrite andb_true_r. destruct (Z.leb_spec (slot m) MAX_SLOTS); cbn [slot]; lia.
    + rewrite andb_false_r. cbn [slot]. lia.
Qed.

Lemma placeAlbum_length (i : nat) (a : album) (m : maps) :
  length (slotToAlbum (placeAlbum i a m)) = length (slotToAlbum m).
Proof.
  rewrite placeAlbum_unfold, fillSlots_clamped by apply clampDiscs_clamped.
  destruct (_ && _); [destruct (_ && _)|]; cbn [slotToAlbum];
    by rewrite ?length_insert.
Qed.

Lemma placeAlbum_lookup (i : nat) (a : album) (m : maps) (k : nat) :
  1 ≤ slot m ≤ MAX_SLOTS + 1 →
  length (slotToAlbum m) = Z.to_nat (MAX_SLOTS + 1) →
  slotToAlbum (placeAlbum i a m) !! k =
    if decide (slot m ≤ Z.of_nat k < Z.min (slot m + slotsWanted a) (MAX_SLOTS + 1))
    then Some (Z.of_nat i) else slotToAlbum m !! k.
Proof.
  intros Hs Hlen.
  rewrite placeAlbum_unfold, fillSlots_clamped by apply clampDiscs_clamped.
  unfold slotsWanted.
  destruct (num_ltb (num_of_Z 1) (clampDiscs a)) eqn:H1.
  - rewrite (num_ltb_1_0 _ H1), !andb_true_r.
    destruct (Z.leb_spec (slot m) MAX_SLOTS).
    + destruct (Z.leb_spec (slot m + 1) MAX_SLOTS); cbn [slotToAlbum].
      * destruct (decide (k = Z.to_nat (slot m + 1))) as [->|?].
        { rewrite list_lookup_insert_eq by (rewrite length_insert; lia).
          rewrite decide_True by lia. done. }
        rewrite list_lookup_insert_ne by done.
        destruct (decide (k = Z.to_nat (slot m))) as [->|?].
        { rewrite list_lookup_insert_eq by lia. rewrite decide_True by lia. done. }
        rewrite list_lookup_insert_ne by done. rewrite decide_False by lia. done.
      * destruct (decide (k = Z.to_nat (slot m))) as [->|?].
        { rewrite list_lookup_insert_eq by lia. rewrite decide_True by lia. done. }
        rewrite list_lookup_insert_ne by done. rewrite decide_False by lia. done.
    + cbn [slotToAlbum]. rewrite decide_False by lia. done.
  - rewrite andb_false_r.
    destruct (num_ltb (num_of_Z 0) (clampDiscs a)).
    + rewrite andb_true_r. destruct (Z.leb_spec (slot m) MAX_SLOTS); cbn [slotToAlbum].
      * destruct (decide (k = Z.to_nat (slot m))) as [->|?].
        { rewrite list_lookup_insert_eq by lia. rewrite decide_True by lia. done. }
        rewrite list_lookup_insert_ne by done. rewrite decide_False by lia. done.
      * rewrite decide_False by lia. done.
    + rewrite andb_false_r. cbn [slotToAlbum]. rewrite decide_False by lia. done.
Qed.

(** The whole loop: cursor, length, and the entries it leaves alone. *)
Lemma placeAlbums_cursor (i : nat) (rest : list album) (m : maps) :
  1 ≤ slot m ≤ MAX_SLOTS + 1 →
  slot (placeAlbums i rest m) =
    Z.min (slot m + foldr (λ a acc, slotsWanted a + acc) 0 rest) (MAX_SLOTS + 1).
Proof.
  revert i m. induction rest as [|a rest IH]; intros i m Hs; cbn [placeAlbums foldr].
  - lia.
  - pose proof (slotsWanted_range a).
    rewrite IH; rewrite placeAlbum_cursor by done; [|lia].
    assert (0 ≤ foldr (λ a acc, slotsWanted a + acc) 0 rest) as Hnn.
    { clear. induction rest as [|b rest IH]; cbn [foldr]; [lia|].
      pose proof (slotsWanted_range b). lia. }
    lia.
Qed.

Lemma placeAlbums_length (i : nat) (rest : list album) (m : maps) :
  length (slotToAlbum (placeAlbums i rest m)) = length (slotToAlbum m).
Proof.
  revert i m. induction rest as [|a rest IH]; intros i m; cbn [placeAlbums]; [done|].
  by rewrite IH, placeAlbum_length.
Qed.

Lemma placeAlbums_lookup_before (i : nat) (rest : list album) (m : maps) (k : nat) :
  1 ≤ slot m ≤ MAX_SLOTS + 1 →
  length (slotToAlbum m) = Z.to_nat (MAX_SLOTS + 1) →
  Z.of_nat k < slot m →
  slotToAlbum (placeAlbums i rest m) !! k = slotToAlbum m !! k.
Proof.
  revert i m. induction rest as [|a rest IH]; intros i m Hs Hlen Hk; cbn [placeAlbums]; [done|].
  pose proof (slotsWanted_range a).
  rewrite IH.
  - rewrite placeAlbum_lookup by done. rewrite decide_False by lia. done.
  - rewrite placeAlbum_cursor by done. lia.
  - by rewrite placeAlbum_length.
  - rewrite placeAlbum_cursor by done. lia.
Qed.

(** What the loop writes are the indices of the albums it visits, at slots
    from the cursor on. *)
Lemma placeAlbums_lookup_new (i : nat) (rest : list album) (m : maps) (k : nat) :
  1 ≤ slot m ≤ MAX_SLOTS + 1 →
  length (slotToAlbum m) = Z.to_nat (MAX_SLOTS + 1) →
  slotToAlbum (placeAlbums i rest m) !! k = slotToAlbum m !! k ∨
  ∃ a : nat, (i ≤ a < i + length rest)%nat ∧
             slotToAlbum (placeAlbums i rest m) !! k = Some (Z.of_nat a) ∧
             slot m ≤ Z.of_nat k < slot (placeAlbums i rest m).
Proof.
  revert i m. induction rest as [|a rest IH]; intros i m Hs Hlen; cbn [placeAlbums]; [by left|].
  pose proof (slotsWanted_range a) as Hw.
  assert (1 ≤ slot (placeAlbum i a m) ≤ MAX_SLOTS + 1) as Hs'
    by (rewrite placeAlbum_cursor by done; lia).
  assert (slot m ≤ slot (placeAlbum i a m)) as Hmono
    by (rewrite placeAlbum_cursor by done; lia).
  assert (slot (placeAlbum i a m) ≤ slot (placeAlbums (S i) rest (placeAlbum i a m))) as Hmono'.
  { rewrite placeAlbums_cursor by done.
    assert (0 ≤ foldr (λ a acc, slotsWanted a + acc) 0 rest) as Hnn.
    { clear. induction rest as [|b rest IH]; cbn [foldr]; [lia|].
      pose proof (slotsWanted_range b). lia. }
    lia. }
  destruct (IH (S i) (placeAlbum i a m) Hs') as [Heq|(b & Hb & Hlk & Hr)].
  { by rewrite placeAlbum_length. }
  - rewrite Heq, placeAlbum_lookup by done. case_decide as Hd; [|by left].
    right. exists i. cbn [length]. split; [lia|]. split; [done|].
    rewrite placeAlbum_cursor in Hmono' by done. lia.
  - right. exists b. cbn [length]. split; [lia|]. split; [done|]. lia.
Qed.

Lemma slotsWanted_sum_app (l1 l2 : list album) :
  foldr (λ a acc, slotsWanted a + acc) 0 (l1 ++ l2) =
  foldr (λ a acc, slotsWanted a + acc) 0 l1 + foldr (λ a acc, slotsWanted a + acc) 0 l2.
Proof. induction l1 as [|a l1 IH]; cbn [foldr app]; lia. Qed.

Lemma slotsWanted_sum_nonneg (l : list album) :
  0 ≤ foldr (λ a acc, slotsWanted a + acc) 0 l.
Proof.
  induction l as [|a l IH]; cbn [foldr]; [lia|].
  pose proof (slotsWanted_range a). lia.
Qed.

Lemma slotsBefore_S (albums : list album) (i : nat) (al : album) :
  albums !! i = Some al →
  slotsBefore albums (S i) = slotsBefore albums i + slotsWanted al.
Proof.
  intros H. unfold slotsBefore. rewrite (take_S_r _ _ _ H), slotsWanted_sum_app.
  cbn [foldr]. lia.
Qed.

Lemma slotsBefore_mono (albums : list album) (i j : nat) :
  (i ≤ j)%nat → slotsBefore albums i ≤ slotsBefore albums j.
Proof.
  intros Hij. unfold slotsBefore.
  replace j with (i + (j - i))%nat by lia.
  rewrite <- take_take_drop, slotsWanted_sum_app.
  pose proof (slotsWanted_sum_nonneg (take (j - i) (drop i albums))). lia.
Qed.

Lemma startSlot_range (albums : list album) (i : nat) :
  1 ≤ startSlot albums i ≤ MAX_SLOTS + 1.
Proof.
  unfold startSlot, slotsBefore.
  pose proof (slotsWanted_sum_nonneg (take i albums)). unfold MAX_SLOTS. lia.
Qed.

(** The state in which the loop reaches album [i]. *)
Lemma placeAlbums_prefix (albums : list album) (i : nat) :
  let m := placeAlbums 0 (take i albums) (initMaps albums) in
  slot m = startSlot albums i ∧
  length (slotToAlbum m) = Z.to_nat (MAX_SLOTS + 1) ∧
  ∀ (k : nat) (a : nat), slotToAlbum m !! k = Some (Z.of_nat a) → (a < i)%nat.
Proof.
  intros m. subst m.
  assert (1 ≤ slot (initMaps albums) ≤ MAX_SLOTS + 1) as Hs by (cbn; unfold MAX_SLOTS; lia).
  assert (length (slotToAlbum (initMaps albums)) = Z.to_nat (MAX_SLOTS + 1)) as Hl
    by (unfold initMaps; cbn [slotToAlbum]; by rewrite length_replicate).
  split; [|split].
  - rewrite placeAlbums_cursor by done. done.
  - by rewrite placeAlbums_length.
  - intros k a Hk.
    destruct (placeAlbums_lookup_new 0 (take i albums) (initMaps albums) k Hs Hl)
      as [Heq|(b & Hb & Hlk & _)].
    + rewrite Heq in Hk. unfold initMaps in Hk. cbn [slotToAlbum] in Hk.
      apply lookup_replicate in Hk as [Hk _]. lia.
    + rewrite Hlk in Hk. injection Hk as Hk. apply Nat2Z.inj in Hk as ->.
      rewrite length_take in Hb. lia.
Qed.

Lemma computeMaps_split (albums : list album) (i : nat) (al : album) :
  albums !! i = Some al →
  computeMaps albums =
  placeAlbums (S i) (drop (S i) albums)
    (placeAlbum i al (placeAlbums 0 (take i albums) (initMaps albums))).
Proof.
  intros Hal. unfold computeMaps.
  rewrite <- (take_drop_middle albums i al Hal) at 1.
  rewrite placeAlbums_app. cbn [placeAlbums].
  rewrite Nat.add_0_l, length_take, Nat.min_l; [done|].
  apply Nat.lt_le_incl. by eapply lookup_lt_Some.
Qed.

(** X1: the start slot of every album is one more than the number of slots
    the albums before it ask for, capped at [MAX_SLOTS + 1]; the final
    cursor is that number for the whole list. *)
Theorem X1_albumStartSlot_closed_form (albums : list album) (i : nat) :
  (i < length albums)%nat →
  albumStartSlot (computeMaps albums) !! i = Some (startSlot albums i) ∧
  slot (computeMaps albums) = startSlot albums (length albums).
Proof.
  intros Hi. split.
  - rewrite albumStartSlot_cursor by done. f_equal. apply placeAlbums_prefix.
  - destruct (placeAlbums_prefix albums (length albums)) as (H & _).
    by rewrite take_ge in H.
Qed.

Lemma X1_albumStartSlot_closed_form_witness :
  albumStartSlot (computeMaps albums3) !! 2%nat = Some (startSlot albums3 2) ∧
  slot (computeMaps albums3) = startSlot albums3 (length albums3).
Proof. apply (X1_albumStartSlot_closed_form albums3 2). vm_compute. lia. Defined.

(** Where album [i] is written, and that it is found nowhere else. *)
Lemma album_slots_written (albums : list album) (i : nat) (al : album) (k : nat) :
  albums !! i = Some al →
  startSlot albums i ≤ Z.of_nat k <
    Z.min (startSlot albums i + slotsWanted al) (MAX_SLOTS + 1) →
  slotToAlbum (computeMaps albums) !! k = Some (Z.of_nat i).
Proof.
  intros Hal Hk. rewrite (computeMaps_split albums i al Hal).
  destruct (placeAlbums_prefix albums i) as (Hs1 & Hl1 & _).
  set (m1 := placeAlbums 0 (take i albums) (initMaps albums)) in *.
  pose proof (startSlot_range albums i) as Hr. rewrite <- Hs1 in *.
  pose proof (slotsWanted_range al) as Hw.
  rewrite placeAlbums_lookup_before;
    rewrite ?placeAlbum_cursor, ?placeAlbum_length by done; [|lia|done|lia].
  rewrite placeAlbum_lookup by done. by rewrite decide_True.
Qed.

Lemma album_slots_only (albums : list album) (i : nat) (al : album) (k : nat) :
  albums !! i = Some al →
  slotToAlbum (computeMaps albums) !! k = Some (Z.of_nat i) →
  startSlot albums i ≤ Z.of_nat k <
    Z.min (startSlot albums i + slotsWanted al) (MAX_SLOTS + 1).
Proof.
  intros Hal. rewrite (computeMaps_split albums i al Hal).
  destruct (placeAlbums_prefix albums i) as (Hs1 & Hl1 & Hv1).
  set (m1 := placeAlbums 0 (take i albums) (initMaps albums)) in *.
  pose proof (startSlot_range albums i) as Hr. rewrite <- Hs1 in *.
  pose proof (slotsWanted_range al) as Hw.
  intros Hk.
  destruct (placeAlbums_lookup_new (S i) (drop (S i) albums) (placeAlbum i al m1) k)
    as [Heq|(b & Hb & Hlk & _)].
  - rewrite placeAlbum_cursor by done. lia.
  - by rewrite placeAlbum_length.
  - rewrite Heq, placeAlbum_lookup in Hk by done.
    case_decide as Hd; [done|]. apply Hv1 in Hk. lia.
  - rewrite Hlk in Hk. injection Hk as Hk. lia.
Qed.

(** X2: the slots that lead to album [i] are exactly the [slotsWanted]
    slots from its start slot on, as far as they lie within
    [1, MAX_SLOTS]; so an album is cut short only at the end of the slots,
    and an album whose disc count is NaN is found at no slot. *)
Theorem X2_slots_of_album (albums : list album) (i : nat) (al : album) (k : nat) :
  albums !! i = Some al →
  slotToAlbum (computeMaps albums) !! k = Some (Z.of_nat i) ↔
  startSlot albums i ≤ Z.of_nat k <
    Z.min (startSlot albums i + slotsWanted al) (MAX_SLOTS + 1).
Proof.
  intros Hal. split.
  - intros Hk. by eapply album_slots_only.
  - intros Hk. by eapply album_slots_written.
Qed.

Lemma X2_slots_of_album_witness :
  slotToAlbum (computeMaps albums3) !! 3%nat = Some (Z.of_nat 1) ↔
  startSlot albums3 1 ≤ Z.of_nat 3 <
    Z.min (startSlot albums3 1 + slotsWanted (album_of_discs 2)) (MAX_SLOTS + 1).
Proof. apply (X2_slots_of_album albums3 1 (album_of_discs 2) 3). reflexivity. Defined.

(** Every slot between the cursor at the start and the cursor at the end
    of the loop has been given to an album. *)
Lemma placeAlbums_lookup_filled (i : nat) (rest : list album) (m : maps) (k : nat) :
  1 ≤ slot m ≤ MAX_SLOTS + 1 →
  length (slotToAlbum m) = Z.to_nat (MAX_SLOTS + 1) →
  slot m ≤ Z.of_nat k < slot (placeAlbums i rest m) →
  ∃ a : nat, slotToAlbum (placeAlbums i rest m) !! k = Some (Z.of_nat a).
Proof.
  revert i m. induction rest as [|a rest IH]; intros i m Hs Hl Hk; cbn [placeAlbums] in *; [lia|].
  pose proof (slotsWanted_range a) as Hw.
  assert (slot (placeAlbum i a m) = Z.min (slot m + slotsWanted a) (MAX_SLOTS + 1))
    as Hs2 by (by apply placeAlbum_cursor).
  destruct (decide (Z.of_nat k < slot (placeAlbum i a m))) as [Hlt|Hge].
  - exists i. rewrite placeAlbums_lookup_before; [| lia | by rewrite placeAlbum_length | done].
    rewrite placeAlbum_lookup by done. rewrite decide_True by lia. done.
  - apply IH; [lia | by rewrite placeAlbum_length | lia].
Qed.

(** X3: the slots that hold an album are exactly the slots from 1 up to
    the final cursor: the albums fill the slots from slot 1 without a
    gap, slot 0 is never used, and what lies at or beyond the cursor is
    unassigned. *)
Theorem X3_assigned_slots_form_a_prefix (albums : list album) (k : nat) :
  (∃ a : nat, slotToAlbum (computeMaps albums) !! k = Some (Z.of_nat a)) ↔
  1 ≤ Z.of_nat k < slot (computeMaps albums).
Proof.
  split.
  - intros [a Ha].
    destruct (wf_written _ _ _ (wf_computeMaps albums) k _ Ha) as [? _]; lia.
  - intros Hk. apply placeAlbums_lookup_filled.
    + cbn. unfold MAX_SLOTS. lia.
    + unfold initMaps. cbn [slotToAlbum]. by rewrite length_replicate.
    + cbn [initMaps slot]. done.
Qed.

(** X4: along the slots the album index never decreases: the forward map
    lists the albums in their input order. *)
Theorem X4_forward_map_monotone (albums : list album) (k1 k2 a1 a2 : nat) :
  (k1 ≤ k2)%nat →
  slotToAlbum (computeMaps albums) !! k1 = Some (Z.of_nat a1) →
  slotToAlbum (computeMaps albums) !! k2 = Some (Z.of_nat a2) →
  (a1 ≤ a2)%nat.
Proof.
  intros Hk H1 H2.
  destruct (wf_written _ _ _ (wf_computeMaps albums) k1 _ H1) as [_ (b1 & _ & Hb1 & Hlt1 & _)]; [lia|].
  destruct (wf_written _ _ _ (wf_computeMaps albums) k2 _ H2) as [_ (b2 & _ & Hb2 & Hlt2 & _)]; [lia|].
  apply Nat2Z.inj in Hb1 as <-. apply Nat2Z.inj in Hb2 as <-.
  destruct (lookup_lt_is_Some_2 albums a1 Hlt1) as [al1 Hal1].
  destruct (lookup_lt_is_Some_2 albums a2 Hlt2) as [al2 Hal2].
  apply (album_slots_only albums a1 al1 k1 Hal1) in H1.
  apply (album_slots_only albums a2 al2 k2 Hal2) in H2.
  destruct (decide (a1 ≤ a2)%nat) as [|Hgt]; [done|]. exfalso.
  pose proof (slotsBefore_mono albums (S a2) a1 ltac:(lia)) as Hm.
  rewrite (slotsBefore_S albums a2 al2 Hal2) in Hm.
  unfold startSlot in *. lia.
Qed.

Lemma X4_forward_map_monotone_witness : (0 ≤ 1)%nat.
Proof.
  apply (X4_forward_map_monotone albums3 1 3 0 1); [lia|reflexivity|reflexivity].
Defined.

(** X5: an album of two discs whose two slots fit below the bound holds
    its start slot and the next one. *)
Theorem X5_two_disc_album_adjacent (albums : list album) (i : nat) (al : album) (st : Z) :
  albums !! i = Some al →
  albumStartSlot (computeMaps albums) !! i = Some st →
  num_ltb (num_of_Z 1) (clampDiscs al) = true →
  st + 1 ≤ MAX_SLOTS →
  slotToAlbum (computeMaps albums) !! Z.to_nat st = Some (Z.of_nat i) ∧
  slotToAlbum (computeMaps albums) !! Z.to_nat (st + 1) = Some (Z.of_nat i).
Proof.
  intros Hal Hst Hd Hfit.
  rewrite albumStartSlot_cursor in Hst by (by eapply lookup_lt_Some).
  destruct (placeAlbums_prefix albums i) as (Hcur & _).
  assert (st = startSlot albums i) as -> by congruence.
  pose proof (startSlot_range albums i) as Hr.
  assert (slotsWanted al = 2) as Hw.
  { unfold slotsWanted. by rewrite Hd, (num_ltb_1_0 _ Hd). }
  split; apply (album_slots_written albums i al _ Hal); rewrite Hw; lia.
Qed.

Lemma X5_two_disc_album_adjacent_witness :
  slotToAlbum (computeMaps albums3) !! Z.to_nat 2 = Some (Z.of_nat 1) ∧
  slotToAlbum (computeMaps albums3) !! Z.to_nat (2 + 1) = Some (Z.of_nat 1).
Proof.
  apply (X5_two_disc_album_adjacent albums3 1 (album_of_discs 2) 2);
    [reflexivity | reflexivity | reflexivity | unfold MAX_SLOTS; lia].
Defined.

(** * Further properties of the slot jump *)

Lemma digitValue_10 (c : N) (v : Z) :
  digitValue 10 c = Some v ↔ (48 ≤ c ≤ 57)%N ∧ v = Z.of_N c - 48.
Proof.
  unfold digitValue. cbn zeta.
  repeat (match goal with
          | |- context [?a <=? ?b] => destruct (Z.leb_spec a b)
          | |- context [?a <? ?b] => destruct (Z.ltb_spec a b)
          end; cbn [andb]);
    (split; [intros [= <-]; lia | intros [? ->]; first [done | lia]]).
Qed.

Lemma N_of_ascii_pretty_N_char (d : N) :
  (d < 10)%N → Ascii.N_of_ascii (pretty_N_char d) = (48 + d)%N.
Proof.
  intros H.
  assert (d = 0 ∨ d = 1 ∨ d = 2 ∨ d = 3 ∨ d = 4 ∨ d = 5 ∨ d = 6 ∨ d = 7 ∨ d = 8 ∨ d = 9)%N
    as Hd by lia.
  destruct_or!; subst; done.
Qed.

Lemma units_String (c : Ascii.ascii) (s : string) :
  units (String c s) = Ascii.N_of_ascii c :: units s.
Proof. done. Qed.

(** Reading back the digits written by [pretty]. *)
Lemma takeDigits_pretty_N_go (x : N) (s : string) (acc : Z) (n : nat) :
  ∃ d : nat,
    takeDigits 10 acc n (units (pretty_N_go x s)) =
    takeDigits 10 (acc * 10 ^ Z.of_nat d + Z.of_N x) (n + d) (units s) ∧
    ((0 < x)%N → (0 < d)%nat).
Proof.
  revert s acc n. induction (N.lt_wf_0 x) as [x _ IH]; intros s acc n.
  destruct (decide (0 < x)%N) as [Hx|Hx].
  - rewrite pretty_N_go_step by done.
    destruct (IH (x `div` 10)%N (N.div_lt x 10 Hx eq_refl)
                (String (pretty_N_char (x `mod` 10)) s) acc n) as (d & Hd & _).
    exists (S d). split; [|lia]. rewrite Hd, units_String. cbn [takeDigits].
    assert (x `mod` 10 < 10)%N as Hm by (by apply N.mod_lt).
    rewrite (proj2 (digitValue_10 _ (Z.of_N (x `mod` 10)))).
    2: { rewrite N_of_ascii_pretty_N_char by done.
         generalize dependent (x `mod` 10)%N. intros; lia. }
    f_equal; [|lia].
    rewrite Nat2Z.inj_succ, Z.pow_succ_r by lia.
    pose proof (N.div_mod x 10 ltac:(done)) as Hdm.
    apply (f_equal Z.of_N) in Hdm. rewrite N2Z.inj_add, N2Z.inj_mul in Hdm.
    change (Z.of_N 10) with 10 in Hdm. revert Hdm.
    generalize (Z.of_N (x `div` 10)) (Z.of_N (x `mod` 10)) (10 ^ Z.of_nat d) (Z.of_N x).
    intros; lia.
  - assert (x = 0%N) as -> by lia. exists 0%nat. rewrite pretty_N_go_0.
    split; [|lia]. f_equal; [|lia]. cbn. lia.
Qed.

Lemma pretty_N_go_head (x : N) (s : string) :
  (0 < x)%N →
  ∃ (c : N) (r : jsstring), units (pretty_N_go x s) = c :: r ∧ (48 ≤ c ≤ 57)%N.
Proof.
  revert s. induction (N.lt_wf_0 x) as [x _ IH]; intros s Hx.
  rewrite pretty_N_go_step by done.
  destruct (decide (0 < x `div` 10)%N) as [Hd|Hd].
  - by apply IH; [apply N.div_lt|].
  - apply N.nlt_ge, N.le_0_r in Hd. rewrite Hd, pretty_N_go_0, units_String.
    eexists _, _. split; [done|].
    rewrite N_of_ascii_pretty_N_char by (by apply N.mod_lt).
    pose proof (N.mod_lt x 10 ltac:(done)) as Hm. revert Hm.
    generalize (x `mod` 10)%N. intros; lia.
Qed.

Lemma digit_head_cases (c : N) :
  (48 ≤ c ≤ 57)%N →
  (c = 48 ∨ c = 49 ∨ c = 50 ∨ c = 51 ∨ c = 52 ∨ c = 53 ∨ c = 54 ∨ c = 55 ∨ c = 56 ∨ c = 57)%N.
Proof. lia. Qed.

(** A text that begins with a digit is read from its first character. *)
Lemma parseInt10_digit_head (c : N) (r : jsstring) :
  (48 ≤ c ≤ 57)%N →
  parseInt10 (c :: r) =
    match takeDigits 10 0 0 (c :: r) with
    | (_, O, _) => NaN
    | (v, S _, _) => toDouble (inject_Z v)
    end.
Proof.
  intros Hc. apply digit_head_cases in Hc. destruct_or!; subst; done.
Qed.

Lemma parseInt10_decimal (k : N) :
  Z.of_N k ≤ 2 ^ 53 → parseInt10 (decimal (Z.of_N k)) = num_of_Z (Z.of_N k).
Proof.
  intros Hk. rewrite <- (toDouble_Z (Z.of_N k)) by lia.
  unfold decimal, pretty, pretty_Z. destruct k as [|p]; [done|].
  cbn [Z.of_N]. unfold pretty, pretty_positive, pretty, pretty_N.
  rewrite decide_False by done.
  destruct (pretty_N_go_head (N.pos p) "") as (c & r & Hcr & Hc); [lia|].
  rewrite Hcr, parseInt10_digit_head by done. rewrite <- Hcr.
  destruct (takeDigits_pretty_N_go (N.pos p) "" 0 0) as (d & Hd & Hpos).
  rewrite Hd. cbn [units String.list_ascii_of_string map takeDigits].
  destruct d as [|d]; [lia|]. cbn [Nat.add]. f_equal.
Qed.

Lemma num_ltb_of_Z (a b : Z) : num_ltb (num_of_Z a) (num_of_Z b) = (a <? b).
Proof.
  unfold num_of_Z. destruct (Z.ltb_spec a b) as [H|H].
  - apply num_ltb_Fin. by rewrite <- Zlt_Qlt.
  - apply not_true_is_false. intros H'%num_ltb_Fin. rewrite <- Zlt_Qlt in H'. lia.
Qed.

(** Reading the forward map through the click handler. *)
Lemma jumpToSlot_of_Z (s2a : list Z) (z : Z) :
  1 ≤ z ≤ MAX_SLOTS →
  jumpToSlot s2a (num_of_Z z) =
    match s2a !! Z.to_nat z with
    | Some pos => if 0 <=? pos then Some pos else None
    | None => None
    end.
Proof.
  intros Hz. unfold jumpToSlot. cbn [isFinite num_of_Z negb orb].
  fold (num_of_Z z). fold (num_of_Z 1). fold (num_of_Z MAX_SLOTS).
  rewrite !num_ltb_of_Z.
  rewrite (proj2 (Z.ltb_ge z 1)), (proj2 (Z.ltb_ge MAX_SLOTS z)) by lia. cbn [orb].
  unfold arrayGet. rewrite arrayIndex_of_Z by lia. done.
Qed.

(** X6: a jump that is carried out leads to an album of the list: the
    number names a slot in [1, MAX_SLOTS], and the slide index handed to
    [slideTo] is the index of the album that slot holds. *)
Theorem X6_jump_lands_on_an_album (albums : list album) (x : number) (pos : Z) :
  jumpToSlot (slotToAlbum (computeMaps albums)) x = Some pos →
  ∃ k a : nat,
    arrayIndex x = Some k ∧ 1 ≤ Z.of_nat k ≤ MAX_SLOTS ∧
    slotToAlbum (computeMaps albums) !! k = Some pos ∧
    pos = Z.of_nat a ∧ (a < length albums)%nat.
Proof.
  unfold jumpToSlot. destruct (_ || _); [done|].
  unfold arrayGet. destruct (arrayIndex x) as [k|] eqn:Hk; [|done].
  cbn [mbind option_bind].
  destruct (slotToAlbum (computeMaps albums) !! k) as [v|] eqn:Hv; [|done].
  destruct (Z.leb_spec 0 v); [|done]. intros [= <-].
  destruct (wf_written _ _ _ (wf_computeMaps albums) k v Hv) as [Hr (a & _ & -> & Ha & _)]; [lia|].
  pose proof (wf_slot _ _ _ (wf_computeMaps albums)).
  exists k, a. repeat split; try done; lia.
Qed.

Lemma X6_jump_lands_on_an_album_witness :
  ∃ k a : nat,
    arrayIndex (num_of_Z 3) = Some k ∧ 1 ≤ Z.of_nat k ≤ MAX_SLOTS ∧
    slotToAlbum (computeMaps albums3) !! k = Some 1 ∧
    1 = Z.of_nat a ∧ (a < length albums3)%nat.
Proof. apply (X6_jump_lands_on_an_album albums3 (num_of_Z 3) 1). reflexivity. Defined.

(** X7: typing the number of a slot that holds an album into the jump
    field, as the page prints it, leads to that album; in particular the
    start slot of an album that received a slot leads to the album. *)
Theorem X7_typed_slot_number_jumps (albums : list album) (k a : nat) :
  slotToAlbum (computeMaps albums) !! k = Some (Z.of_nat a) →
  goBtn_click (slotToAlbum (computeMaps albums)) (decimal (Z.of_nat k)) = Some (Z.of_nat a).
Proof.
  intros Hk.
  destruct (wf_written _ _ _ (wf_computeMaps albums) k _ Hk) as [Hr _]; [lia|].
  pose proof (wf_slot _ _ _ (wf_computeMaps albums)).
  unfold goBtn_click. rewrite <- (nat_N_Z k), parseInt10_decimal, nat_N_Z
    by (rewrite nat_N_Z; unfold MAX_SLOTS in *; lia).
  rewrite jumpToSlot_of_Z by lia. rewrite Nat2Z.id, Hk.
  by rewrite (proj2 (Z.leb_le 0 (Z.of_nat a))) by lia.
Qed.

Lemma X7_typed_slot_number_jumps_witness :
  goBtn_click (slotToAlbum (computeMaps albums3)) (decimal (Z.of_nat 4)) = Some (Z.of_nat 2).
Proof. apply (X7_typed_slot_number_jumps albums3 4 2). reflexivity. Defined.

(** * Further properties of the resolution of a song *)

Lemma arrayIndex_Some (x : number) (i : nat) :
  arrayIndex x = Some i ↔ num_eqb x (num_of_Z (Z.of_nat i)) = true.
Proof.
  destruct x as [| |q|]; try done. unfold arrayIndex. cbn [num_eqb num_of_Z].
  rewrite Qeq_bool_iff. split.
  - pose proof (Qred_correct q) as Hq. destruct (Qred q) as [n d].
    cbn [Qnum Qden].
    destruct (Z.leb_spec 0 n); cbn [andb]; [|done].
    destruct (Pos.eqb_spec d 1) as [->|]; [|done].
    intros [= <-]. rewrite Z2Nat.id by done. by rewrite <- Hq.
  - intros Hq. apply Qred_complete in Hq. rewrite Hq.
    rewrite Qcanon.Qred_identity by apply Z.gcd_1_r. cbn [inject_Z Qnum Qden].
    rewrite (proj2 (Z.leb_le 0 (Z.of_nat i))) by lia. cbn. by rewrite Nat2Z.id.
Qed.

Lemma computePlatzForSong_valid (albums : list album) (ass : list Z) (s : song)
    (i : nat) (al : album) :
  arrayIndex (albumIndex s) = Some i → albums !! i = Some al →
  computePlatzForSong albums ass s =
    let start := default 0 (ass !! i) in
    if from_option (λ d, num_eqb d (num_of_Z 1)) false (disc s) then Res.mk (Some start) false
    else if from_option (λ d, num_eqb d (num_of_Z 2)) false (disc s) then
      if num_leb (num_of_Z 2) (clampDiscs al)
      then Res.mk (Some (Z.min (start + 1) MAX_SLOTS)) false
      else Res.mk (Some start) true
    else if num_eqb (clampDiscs al) (num_of_Z 1) then Res.mk (Some start) false
    else Res.mk (Some start) true.
Proof.
  intros Hi Hal. unfold computePlatzForSong.
  rewrite (arrayIndex_nonneg _ _ Hi). unfold arrayGet. rewrite Hi.
  cbn [mbind option_bind]. by rewrite Hal.
Qed.

Lemma albumStartSlot_startSlot (albums : list album) (i : nat) :
  (i < length albums)%nat →
  albumStartSlot (computeMaps albums) !! i = Some (startSlot albums i).
Proof.
  intros Hi. rewrite albumStartSlot_cursor by done. f_equal. apply placeAlbums_prefix.
Qed.

Lemma num_leb_2_ltb_1 (d : number) :
  num_leb (num_of_Z 2) d = true → num_ltb (num_of_Z 1) d = true.
Proof.
  destruct d as [| |q|]; try done.
  change (num_of_Z 2) with (Fin 2). change (num_of_Z 1) with (Fin 1).
  rewrite num_leb_Fin, num_ltb_Fin. intros H. eapply Qlt_le_trans; [|exact H]. done.
Qed.

(** X8: the slot found for a song leads back to the album of the song:
    when that album has received a slot, the slot number
    [computePlatzForSong] gives, put into the slot jump, selects this
    album, whatever the [disc] of the song. *)
Theorem X8_resolved_slot_leads_to_album (albums : list album) (s : song)
    (i k : nat) :
  arrayIndex (albumIndex s) = Some i →
  slotToAlbum (computeMaps albums) !! k = Some (Z.of_nat i) →
  ∃ z : Z,
    Res.slot (computePlatzForSong albums (albumStartSlot (computeMaps albums)) s) = Some z ∧
    jumpToSlot (slotToAlbum (computeMaps albums)) (num_of_Z z) = Some (Z.of_nat i).
Proof.
  intros Hi Hk.
  destruct (wf_written _ _ _ (wf_computeMaps albums) k _ Hk) as [_ (a & _ & Ha & Hlt & _)]; [lia|].
  apply Nat2Z.inj in Ha as <-.
  destruct (lookup_lt_is_Some_2 albums i Hlt) as [al Hal].
  apply (album_slots_only albums i al k Hal) in Hk.
  pose proof (startSlot_range albums i) as Hr.
  pose proof (slotsWanted_range al) as Hw.
  rewrite (computePlatzForSong_valid albums _ s i al Hi Hal).
  rewrite albumStartSlot_startSlot by done.
  change (default 0 (Some (startSlot albums i))) with (startSlot albums i). cbn zeta.
  assert (∀ z, startSlot albums i ≤ z <
               Z.min (startSlot albums i + slotsWanted al) (MAX_SLOTS + 1) →
            jumpToSlot (slotToAlbum (computeMaps albums)) (num_of_Z z) = Some (Z.of_nat i))
    as Hjump.
  { intros z Hz. rewrite jumpToSlot_of_Z by lia.
    rewrite (album_slots_written albums i al (Z.to_nat z) Hal) by lia.
    by rewrite (proj2 (Z.leb_le 0 (Z.of_nat i))) by lia. }
  destruct (from_option _ false (disc s)); [eexists; split; [done|]; apply Hjump; lia|].
  destruct (from_option _ false (disc s)).
  - destruct (num_leb (num_of_Z 2) (clampDiscs al)) eqn:H2.
    + assert (slotsWanted al = 2) as Hw2.
      { apply num_leb_2_ltb_1 in H2. unfold slotsWanted.
        by rewrite H2, (num_ltb_1_0 _ H2). }
      eexists; split; [done|]. apply Hjump. lia.
    + eexists; split; [done|]. apply Hjump. lia.
  - destruct (num_eqb _ _); eexists; (split; [done|]); apply Hjump; lia.
Qed.

Lemma X8_resolved_slot_leads_to_album_witness :
  ∃ z : Z,
    Res.slot (computePlatzForSong albums3 (albumStartSlot (computeMaps albums3))
                (Song (units "Come Together") (num_of_Z 1) (Some (num_of_Z 2)))) = Some z ∧
    jumpToSlot (slotToAlbum (computeMaps albums3)) (num_of_Z z) = Some (Z.of_nat 1).
Proof.
  apply (X8_resolved_slot_leads_to_album albums3 _ 1 2); reflexivity.
Defined.

(** X9: the result is the [null] slot exactly when [albumIndex] is not the
    index of an album: a negative number (the loader's -1), NaN, a
    fraction or a number from [albums.length] on. *)
Theorem X9_null_slot_iff_no_album (albums : list album) (ass : list Z) (s : song) :
  Res.slot (computePlatzForSong albums ass s) = None ↔
  ∀ i : nat, (i < length albums)%nat →
    num_eqb (albumIndex s) (num_of_Z (Z.of_nat i)) = false.
Proof.
  split.
  - intros Hnull i Hi. apply not_true_is_false. intros Heq%arrayIndex_Some.
    destruct (lookup_lt_is_Some_2 albums i Hi) as [al Hal].
    rewrite (computePlatzForSong_valid albums ass s i al Heq Hal) in Hnull.
    cbn zeta in Hnull. by repeat case_match.
  - intros Hall. unfold computePlatzForSong.
    destruct (num_leb (num_of_Z 0) (albumIndex s)); [|done].
    unfold arrayGet. destruct (arrayIndex (albumIndex s)) as [i|] eqn:Hi; [|done].
    cbn [mbind option_bind]. destruct (albums !! i) as [al|] eqn:Hal; [|done].
    apply arrayIndex_Some in Hi. rewrite Hall in Hi; [done|]. by eapply lookup_lt_Some.
Qed.

(** * Further properties of the search *)

Lemma trimEnd_length (s : jsstring) : (length (trimEnd s) ≤ length s)%nat.
Proof.
  induction s as [|c s IH]; [done|]. cbn [trimEnd].
  destruct (trimEnd s); [destruct (isWhiteSpace c)|]; cbn [length] in *; lia.
Qed.

Lemma trimEnd_snoc_ws (s : jsstring) (c : N) :
  isWhiteSpace c = true → trimEnd (s ++ [c]) = trimEnd s.
Proof.
  intros Hc. induction s as [|a s IH]; cbn [app trimEnd].
  - by rewrite Hc.
  - by rewrite IH.
Qed.

Lemma spaced_no_double (b : bool) (u v : jsstring) :
  spaced b (u ++ 32%N :: 32%N :: v) = false.
Proof.
  revert b. induction u as [|c u IH]; intros b; cbn [app spaced].
  - rewrite isWhiteSpace_32. cbn. by rewrite andb_false_r.
  - destruct (isWhiteSpace c); [by rewrite IH, andb_false_r|apply IH].
Qed.

Lemma startsWith_refl (s : jsstring) : startsWith s s = true.
Proof. induction s as [|c s IH]; [done|]. cbn. by rewrite N.eqb_refl. Qed.

Lemma startsWith_includes (s p : jsstring) : startsWith s p = true → includes s p = true.
Proof. intros H. destruct s; cbn [includes]; by rewrite H. Qed.

Lemma Set_has_true (set : list jsstring) (t : jsstring) : Set_has set t = true ↔ t ∈ set.
Proof. unfold Set_has. apply bool_decide_eq_true. Qed.

(** The two counts of the token overlap do not depend on the order of the
    two strings. *)
Lemma inter_sym (tq tc : list jsstring) :
  NoDup tq → NoDup tc →
  length (filter (λ t, Set_has tc t = true) tq) =
  length (filter (λ t, Set_has tq t = true) tc).
Proof.
  intros Hq Hc. apply Permutation_length, NoDup_Permutation.
  - by apply NoDup_filter.
  - by apply NoDup_filter.
  - intros x. rewrite !list_elem_of_filter, !Set_has_true. tauto.
Qed.

Lemma union_sym (tq tc : list jsstring) :
  length (newSet (tq ++ tc)) = length (newSet (tc ++ tq)).
Proof.
  apply Permutation_length, NoDup_Permutation; try apply newSet_NoDup.
  intros x. rewrite !newSet_elem, !elem_of_app. tauto.
Qed.

Section SearchMore.
Context `{B : Builtins}.

(** X11: every result of [norm] consists of the characters [a-z], [0-9]
    and the space only, neither begins nor ends with a space, and has no
    two spaces in a row, whatever the runtime makes of the input. *)
Theorem X11_norm_shape (s : jsstring) :
  (∀ c, c ∈ norm s → isPlain c = true) ∧
  (∀ t, norm s ≠ 32%N :: t) ∧
  (∀ t, norm s ≠ t ++ [32%N]) ∧
  (∀ u v, norm s ≠ u ++ 32%N :: 32%N :: v).
Proof.
  pose proof (norm_plain s) as Hp. pose proof (norm_spaced s) as Hs.
  pose proof (norm_trimmed s) as Ht.
  assert (headWS (norm s) = false) as Hh
    by (unfold norm, trim; apply trimEnd_headWS, trimStart_headWS).
  split; [|split; [|split]].
  - intros c Hc. rewrite forallb_forall in Hp. by apply Hp, list_elem_of_In.
  - intros t Heq. rewrite Heq in Hh. done.
  - intros t Heq. unfold trim in Ht. rewrite (trimStart_id _ Hh) in Ht.
    rewrite Heq, trimEnd_snoc_ws in Ht by done.
    pose proof (trimEnd_length t) as Hl. rewrite Ht, length_app in Hl. cbn in Hl. lia.
  - intros u v Heq. rewrite Heq, spaced_no_double in Hs. done.
Qed.

Lemma baseScore_sym (q c : jsstring) : baseScore q c = baseScore c q.
Proof.
  unfold baseScore.
  rewrite (inter_sym (newSet (split 32 q)) (newSet (split 32 c)))
    by apply newSet_NoDup.
  rewrite (union_sym (newSet (split 32 q)) (newSet (split 32 c))).
  by rewrite (orb_comm (includes c q)).
Qed.

Lemma partialScore_sym (q c : jsstring) :
  add64 (partialScore q c) (if startsWith q c then 0.25 else 0) =
  add64 (partialScore c q) (if startsWith c q then 0.25 else 0).
Proof.
  unfold partialScore. rewrite (baseScore_sym c q).
  assert (0 <= baseScore q c + 0.25)%Q as H
    by (apply Qadd_nonneg; [apply baseScore_range|done]).
  destruct (startsWith c q), (startsWith q c); try reflexivity.
  - exact (nearestDouble_add_0 _ H).
  - symmetry. exact (nearestDouble_add_0 _ H).
Qed.

(** X12: the score is symmetric but for the prefix bonus: for two strings
    whose normal forms are not empty, exchanging query and candidate
    changes the score by the bonus of 0.25 only, given to the direction in
    which the candidate begins with the query: adding the bonus to the
    score of the other direction, as the code adds it, gives the same
    number. *)
Theorem X12_score_symmetric_up_to_prefix (query candidate : jsstring) :
  norm query ≠ [] → norm candidate ≠ [] →
  add64 (fuzzyScore query candidate)
        (if startsWith (norm query) (norm candidate) then 0.25 else 0) =
  add64 (fuzzyScore candidate query)
        (if startsWith (norm candidate) (norm query) then 0.25 else 0).
Proof.
  intros Hq Hc. rewrite !fuzzyScore_unfold.
  rewrite !(bool_decide_eq_false_2 (norm query = [])) by done.
  rewrite !(bool_decide_eq_false_2 (norm candidate = [])) by done. cbn [orb].
  destruct (decide (norm query = norm candidate)) as [He|He].
  - rewrite !bool_decide_eq_true_2 by done. by rewrite He, startsWith_refl.
  - rewrite !bool_decide_eq_false_2 by done. apply partialScore_sym.
Qed.

(** What a result of [findBestSong] is. *)
Lemma findBestSong_Some (SONGS : list song) (query : jsstring) (s : song) :
  findBestSong SONGS query = Some s →
  ∃ l1 l2 : list song,
    SONGS = l1 ++ s :: l2 ∧
    (threshold < fuzzyScore query (n s))%Q ∧
    (∀ x, x ∈ l1 → (fuzzyScore query (n x) < fuzzyScore query (n s))%Q) ∧
    (∀ x, x ∈ l2 → (fuzzyScore query (n x) <= fuzzyScore query (n s))%Q).
Proof.
  unfold findBestSong.
  destruct (findBestSong_loop_spec query SONGS None 0%Q) as (_ & _ & H3).
  destruct (findBestSong_loop query SONGS None 0%Q) as [best bs].
  destruct (Qgtb bs threshold) eqn:E; [|done]. apply Qgtb_true in E. intros ->.
  destruct H3 as [[[= ] _]|(l1 & s' & l2 & -> & [= <- ->] & _ & Hl1 & Hl2)].
  exists l1, l2. split; [reflexivity|]. split; [exact E|]. split; [exact Hl1|exact Hl2].
Qed.

(** X13: the result of [findBestSong] is an entry of the catalogue whose
    score is above 0.15, strictly above the score of every entry before it
    and at least the score of every entry after it, the scores being the
    doubles the code computes. *)
Theorem X13_result_is_first_maximum (SONGS : list song) (query : jsstring) (s : song) :
  findBestSong SONGS query = Some s →
  ∃ l1 l2 : list song,
    SONGS = l1 ++ s :: l2 ∧
    (threshold < fuzzyScore query (n s))%Q ∧ (0.15 < fuzzyScore query (n s))%Q ∧
    (∀ x, x ∈ l1 → (fuzzyScore query (n x) < fuzzyScore query (n s))%Q) ∧
    (∀ x, x ∈ l2 → (fuzzyScore query (n x) <= fuzzyScore query (n s))%Q).
Proof.
  intros H. destruct (findBestSong_Some SONGS query s H) as (l1 & l2 & H1 & H2 & H3 & H4).
  exists l1, l2. split; [exact H1|]. split; [exact H2|]. split; [|exact (conj H3 H4)].
  apply Qnot_le_lt. intros Hle.
  apply (threshold_exact _ (fuzzyScore_isDouble query (n s))) in Hle.
  by eapply Qlt_not_le.
Qed.

Lemma findBestSong_above (SONGS : list song) (query : jsstring) (s : song) :
  s ∈ SONGS → (threshold < fuzzyScore query (n s))%Q →
  ∃ s' : song, findBestSong SONGS query = Some s' ∧ s' ∈ SONGS ∧
               (fuzzyScore query (n s) <= fuzzyScore query (n s'))%Q.
Proof.
  intros Hs Hsc. destruct (findBestSong SONGS query) as [s'|] eqn:E.
  - exists s'. split; [done|].
    destruct (findBestSong_Some SONGS query s' E) as (l1 & l2 & -> & _ & Hl1 & Hl2).
    split; [apply elem_of_app; right; by left|].
    apply elem_of_app in Hs as [Hs|[->|Hs]%elem_of_cons].
    + by apply Qlt_le_weak, Hl1.
    + apply Qle_refl.
    + by apply Hl2.
  - exfalso. rewrite findBestSong_None in E.
    eapply Qlt_not_le; [exact Hsc|]. by apply E.
Qed.

Lemma includes_nil_l (p : jsstring) : includes [] p = true → p = [].
Proof. by destruct p. Qed.

(** X14: a query whose normal form is not empty and occurs inside the
    normal form of some title always finds a song, one that scores at
    least 1. *)
Theorem X14_substring_always_matches (SONGS : list song) (query : jsstring) (s : song) :
  s ∈ SONGS → norm query ≠ [] →
  includes (norm (n s)) (norm query) = true →
  ∃ s' : song, findBestSong SONGS query = Some s' ∧ (1 <= fuzzyScore query (n s'))%Q.
Proof.
  intros Hs Hq Hinc.
  assert (norm (n s) ≠ []) as Hc.
  { intros Hnil. rewrite Hnil in Hinc. by apply includes_nil_l in Hinc. }
  assert (1 <= fuzzyScore query (n s))%Q as H1.
  { rewrite fuzzyScore_unfold.
    rewrite !bool_decide_eq_false_2 by done. cbn [orb].
    case_bool_decide; [done|].
    pose proof (baseScore_bounds (norm query) (norm (n s))) as [Hb _].
    rewrite Hinc in Hb. cbn [orb] in Hb.
    unfold partialScore. destruct (startsWith _ _); [|done].
    unfold add64.
    apply (nearestDouble_between _ 1 (2 + 0.25)); [apply isDouble_1|apply isDouble_2_25| |].
    - rewrite <- (Qplus_0_r 1) at 1. by apply Qplus_le_compat.
    - apply Qplus_le_compat; [apply baseScore_range|apply Qle_refl]. }
  destruct (findBestSong_above SONGS query s Hs) as (s' & Hs' & _ & Hle).
  { eapply Qlt_le_trans; [|exact H1]. by rewrite threshold_value. }
  exists s'. split; [done|]. by eapply Qle_trans.
Qed.

Lemma fuzzyScore_ge_3 (query candidate : jsstring) :
  (3 <= fuzzyScore query candidate)%Q → norm query = norm candidate ∧ norm query ≠ [].
Proof.
  rewrite fuzzyScore_unfold.
  destruct (decide (norm query = [])) as [Hq|Hq].
  { rewrite bool_decide_eq_true_2 by done. cbn [orb]. done. }
  destruct (decide (norm candidate = [])) as [Hc|Hc].
  { rewrite (bool_decide_eq_true_2 (norm candidate = [])), orb_true_r by done. done. }
  rewrite !bool_decide_eq_false_2 by done. cbn [orb].
  case_bool_decide as He; [done|].
  intros H. exfalso. eapply Qlt_not_le; [|exact H].
  eapply Qle_lt_trans; [apply partialScore_bounds|done].
Qed.

(** X15: when some title of the catalogue has the normal form of the
    query (and it is not empty), the song found is an exact match as well:
    a partial match never wins over an exact one. *)
Theorem X15_exact_match_wins (SONGS : list song) (query : jsstring) (s : song) :
  s ∈ SONGS → norm (n s) = norm query → norm query ≠ [] →
  ∃ s' : song, findBestSong SONGS query = Some s' ∧ norm (n s') = norm query.
Proof.
  intros Hs He Hq.
  assert (fuzzyScore query (n s) == 3)%Q as H3.
  { rewrite fuzzyScore_unfold, He.
    rewrite !bool_decide_eq_false_2 by done. cbn [orb].
    by rewrite bool_decide_eq_true_2. }
  destruct (findBestSong_above SONGS query s Hs) as (s' & Hs' & _ & Hle).
  { rewrite H3. by rewrite threshold_value. }
  exists s'. split; [done|]. rewrite H3 in Hle.
  by destruct (fuzzyScore_ge_3 _ _ Hle) as [-> _].
Qed.

End SearchMore.

Lemma X12_score_symmetric_up_to_prefix_witness :
  add64 (@fuzzyScore ascii_builtins (units "abbey") (units "Abbey Road"))
        (if startsWith (@norm ascii_builtins (units "abbey"))
                       (@norm ascii_builtins (units "Abbey Road")) then 0.25 else 0) =
  add64 (@fuzzyScore ascii_builtins (units "Abbey Road") (units "abbey"))
        (if startsWith (@norm ascii_builtins (units "Abbey Road"))
                       (@norm ascii_builtins (units "abbey")) then 0.25 else 0).
Proof.
  apply (@X12_score_symmetric_up_to_prefix ascii_builtins); by vm_compute.
Defined.

Lemma X13_result_is_first_maximum_witness :
  ∃ l1 l2 : list song,
    [song_let_it_be; song_abbey_1; song_abbey_2] = l1 ++ song_abbey_1 :: l2 ∧
    (threshold < @fuzzyScore ascii_builtins (units "abbey road") (n song_abbey_1))%Q ∧
    (0.15 < @fuzzyScore ascii_builtins (units "abbey road") (n song_abbey_1))%Q ∧
    (∀ x, x ∈ l1 → (@fuzzyScore ascii_builtins (units "abbey road") (n x) <
                     @fuzzyScore ascii_builtins (units "abbey road") (n song_abbey_1))%Q) ∧
    (∀ x, x ∈ l2 → (@fuzzyScore ascii_builtins (units "abbey road") (n x) <=
                     @fuzzyScore ascii_builtins (units "abbey road") (n song_abbey_1))%Q).
Proof.
  apply (@X13_result_is_first_maximum ascii_builtins). by vm_compute.
Defined.

Lemma X14_substring_always_matches_witness :
  ∃ s' : song,
    @findBestSong ascii_builtins [song_let_it_be; song_abbey_1] (units "bey ro") = Some s' ∧
    (1 <= @fuzzyScore ascii_builtins (units "bey ro") (n s'))%Q.
Proof.
  apply (@X14_substring_always_matches ascii_builtins _ _ song_abbey_1).
  - apply elem_of_cons. right. apply elem_of_cons. by left.
  - by vm_compute.
  - by vm_compute.
Defined.

Lemma X15_exact_match_wins_witness :
  ∃ s' : song,
    @findBestSong ascii_builtins [song_let_it_be; song_abbey_1] (units " abbey, road ") = Some s' ∧
    @norm ascii_builtins (n s') = @norm ascii_builtins (units " abbey, road ").
Proof.
  apply (@X15_exact_match_wins ascii_builtins _ _ song_abbey_1).
  - apply elem_of_cons. right. apply elem_of_cons. by left.
  - by vm_compute.
  - by vm_compute.
Defined.

(** * Properties of the label and of the search field *)

Lemma isInt_of_Z (z : Z) : isInt (num_of_Z z) z.
Proof. by exists (inject_Z z). Qed.

(** Sums and differences of whole numbers are exact up to 53 bits. *)
Lemma isInt_add (a b : number) (x y : Z) :
  isInt a x → isInt b y → 0 ≤ x + y ≤ 2 ^ 53 → isInt (num_add a b) (x + y).
Proof.
  intros (p & -> & Hp) (q & -> & Hq) Hr. cbn [num_add].
  assert (p + q == inject_Z (x + y))%Q as Hs by (by rewrite Hp, Hq, inject_Z_plus).
  destruct (toDouble_bounds (p + q) (x + y) (x + y) Hr Hr) as (-> & Hl & Hh);
    [rewrite Hs; apply Qle_refl..|].
  eexists. split; [done|]. by apply Qle_antisym.
Qed.

Lemma isInt_sub (a b : number) (x y : Z) :
  isInt a x → isInt b y → 0 ≤ x - y ≤ 2 ^ 53 → isInt (num_sub a b) (x - y).
Proof.
  intros Ha (q & -> & Hq) Hr. unfold num_sub. cbn [num_neg].
  apply isInt_add; [done| |done]. exists (- q)%Q. split; [done|].
  by rewrite Hq, inject_Z_opp.
Qed.

Lemma isInt_ltb (a b : number) (x y : Z) :
  isInt a x → isInt b y → num_ltb a b = (x <? y).
Proof.
  intros (p & -> & Hp) (q & -> & Hq). destruct (Z.ltb_spec x y) as [H|H].
  - apply num_ltb_Fin. rewrite Hp, Hq. by rewrite <- Zlt_Qlt.
  - apply not_true_is_false. intros H'%num_ltb_Fin.
    rewrite Hp, Hq, <- Zlt_Qlt in H'. lia.
Qed.

Lemma isInt_eqb (a b : number) (x y : Z) :
  isInt a x → isInt b y → num_eqb a b = (x =? y).
Proof.
  intros (p & -> & Hp) (q & -> & Hq). cbn [num_eqb].
  destruct (Z.eqb_spec x y) as [->|H].
  - apply Qeq_bool_iff. by rewrite Hp, Hq.
  - apply not_true_is_false. intros H'%Qeq_bool_iff.
    apply H, inject_Z_injective. by rewrite <- Hp, <- Hq.
Qed.

Lemma isInt_min (a b : number) (x y : Z) :
  isInt a x → isInt b y → isInt (Math_min a b) (Z.min x y).
Proof.
  intros Ha Hb. pose proof (isInt_ltb b a y x Hb Ha) as Hlt.
  destruct Ha as (p & -> & Hp), Hb as (q & -> & Hq). cbn [Math_min].
  rewrite Hlt. destruct (Z.ltb_spec y x).
  - exists q. split; [done|]. by rewrite Z.min_r by lia.
  - exists p. split; [done|]. by rewrite Z.min_l by lia.
Qed.

Lemma isInt_of_eqb (x : number) (z : Z) : num_eqb x (num_of_Z z) = true → isInt x z.
Proof.
  destruct x as [| |q|]; try done. cbn [num_eqb num_of_Z].
  intros H%Qeq_bool_iff. by exists q.
Qed.

Lemma slotsWanted_isInt (al : album) (z : Z) :
  isInt (clampDiscs al) z → slotsWanted al = Z.min (Z.max z 0) 2.
Proof.
  intros Hd. unfold slotsWanted.
  rewrite (isInt_ltb _ _ 0 z (isInt_of_Z 0) Hd), (isInt_ltb _ _ 1 z (isInt_of_Z 1) Hd).
  destruct (Z.ltb_spec 0 z), (Z.ltb_spec 1 z); lia.
Qed.

Lemma clampDiscs_isInt_range (al : album) (z : Z) :
  isInt (clampDiscs al) z → 1 ≤ z ≤ 2.
Proof.
  intros (q & Hq & Hz). destruct (clampDiscs_clamped al) as [H|(q' & H & H1 & H2)];
    rewrite H in Hq; [done|]. injection Hq as <-.
  rewrite Hz in H1, H2. change 1%Q with (inject_Z 1) in H1.
  change 2%Q with (inject_Z 2) in H2. rewrite <- Zle_Qle in H1, H2. lia.
Qed.

Section DisplayProperties.
Context `{B : Builtins} `{F : NumberFormat}.

Lemma NumberToString_isInt `{!NumberFormatSpec F} (x : number) (z : Z) :
  isInt x z → Z.abs z < 10 ^ 21 → NumberToString x = decimal z.
Proof. intros (q & -> & Hq) Hz. by apply NumberToString_integer. Qed.

(** The label when the disc count is a whole number: the start slot, and
    the last slot if it differs. *)
Lemma rangeLabel_isInt `{!NumberFormatSpec F} (albums : list album) (ass : list Z)
    (i : nat) (al : album) (st d : Z) :
  albums !! i = Some al → ass !! i = Some st → isInt (clampDiscs al) d →
  0 ≤ st ≤ MAX_SLOTS + 1 →
  rangeLabel albums ass i =
    if decide (st = Z.min MAX_SLOTS (st + d - 1)) then decimal st
    else decimal st ++ [8211%N] ++ decimal (Z.min MAX_SLOTS (st + d - 1)).
Proof.
  intros Hal Hst Hd Hr. pose proof (clampDiscs_isInt_range al d Hd) as Hdr.
  unfold rangeLabel. rewrite Hal, Hst.
  change (default 0 (Some st)) with st. change (default _ (Some al)) with al. cbn zeta.
  assert (isInt (Math_min (num_of_Z MAX_SLOTS)
                   (num_sub (num_add (num_of_Z st) (clampDiscs al)) (num_of_Z 1)))
                (Z.min MAX_SLOTS (st + d - 1))) as He.
  { apply isInt_min; [apply isInt_of_Z|].
    apply isInt_sub; [|apply isInt_of_Z|unfold MAX_SLOTS in *; lia].
    apply isInt_add; [apply isInt_of_Z|done|unfold MAX_SLOTS in *; lia]. }
  rewrite (isInt_eqb _ _ st _ (isInt_of_Z st) He).
  rewrite (NumberToString_isInt _ st (isInt_of_Z st)) by (unfold MAX_SLOTS in *; lia).
  rewrite (NumberToString_isInt _ _ He) by (unfold MAX_SLOTS in *; lia).
  destruct (Z.eqb_spec st (Z.min MAX_SLOTS (st + d - 1))); by case_decide.
Qed.

(** X16: for an album whose disc count is a whole number and which has
    received a slot, the label names exactly the slots that lead to the
    album: the single slot, or the first and the last of them joined by a
    dash. *)
Theorem X16_label_names_the_slots `{!NumberFormatSpec F} (albums : list album)
    (i k0 : nat) (al : album) (d : Z) :
  albums !! i = Some al →
  isInt (clampDiscs al) d →
  slotToAlbum (computeMaps albums) !! k0 = Some (Z.of_nat i) →
  ∃ first last : Z,
    (∀ k : nat, slotToAlbum (computeMaps albums) !! k = Some (Z.of_nat i) ↔
                first ≤ Z.of_nat k ≤ last) ∧
    rangeLabel albums (albumStartSlot (computeMaps albums)) i =
      if decide (first = last) then decimal first
      else decimal first ++ [8211%N] ++ decimal last.
Proof.
  intros Hal Hd Hk0.
  pose proof (clampDiscs_isInt_range al d Hd) as Hdr.
  pose proof (slotsWanted_isInt al d Hd) as Hw.
  pose proof (startSlot_range albums i) as Hr.
  pose proof (album_slots_only albums i al k0 Hal Hk0) as Hk0'.
  exists (startSlot albums i), (Z.min MAX_SLOTS (startSlot albums i + d - 1)). split.
  - intros k. split.
    + intros Hk%(album_slots_only albums i al k Hal). lia.
    + intros Hk. apply (album_slots_written albums i al k Hal). lia.
  - apply (rangeLabel_isInt albums _ i al _ d); [done| |done|lia].
    apply albumStartSlot_startSlot. by eapply lookup_lt_Some.
Qed.

(** X17: an album that lies beyond the last slot holds no slot, yet its
    label is not empty: it reads [101–100] for every disc count that is a
    number. *)
Theorem X17_label_beyond_the_slots `{!NumberFormatSpec F} (albums : list album)
    (i : nat) (al : album) :
  albums !! i = Some al →
  albumStartSlot (computeMaps albums) !! i = Some (MAX_SLOTS + 1) →
  clampDiscs al ≠ NaN →
  (∀ k : nat, slotToAlbum (computeMaps albums) !! k ≠ Some (Z.of_nat i)) ∧
  rangeLabel albums (albumStartSlot (computeMaps albums)) i =
    decimal (MAX_SLOTS + 1) ++ [8211%N] ++ decimal MAX_SLOTS.
Proof.
  intros Hal Hst Hd. split.
  - intros k Hk%(album_slots_only albums i al k Hal).
    rewrite albumStartSlot_startSlot in Hst by (by eapply lookup_lt_Some).
    injection Hst as Hst. lia.
  - unfold rangeLabel. rewrite Hal, Hst.
    change (default 0 (Some (MAX_SLOTS + 1))) with (MAX_SLOTS + 1).
    change (default _ (Some al)) with al. cbn zeta.
    destruct (clampDiscs_clamped al) as [?|(q & Hq & Hq1 & Hq2)]; [done|]. rewrite Hq.
    assert (Math_min (num_of_Z MAX_SLOTS)
              (num_sub (num_add (num_of_Z (MAX_SLOTS + 1)) (Fin q)) (num_of_Z 1)) =
            num_of_Z MAX_SLOTS) as ->.
    { unfold num_of_Z, num_sub. cbn [num_add num_neg].
      destruct (toDouble_bounds (inject_Z (MAX_SLOTS + 1) + q) 102 103) as (-> & Hl1 & Hh1);
        [by vm_compute..| | |].
      { change (inject_Z 102) with (inject_Z (MAX_SLOTS + 1) + 1)%Q.
        apply Qplus_le_compat; [apply Qle_refl|exact Hq1]. }
      { change (inject_Z 103) with (inject_Z (MAX_SLOTS + 1) + 2)%Q.
        apply Qplus_le_compat; [apply Qle_refl|exact Hq2]. }
      cbn [num_add].
      destruct (toDouble_bounds (nearestDouble (inject_Z (MAX_SLOTS + 1) + q) + - inject_Z 1)
                  101 102) as (-> & Hl2 & _); [by vm_compute..| | |].
      { change (inject_Z 101) with (inject_Z 102 + - inject_Z 1)%Q.
        apply Qplus_le_compat; [exact Hl1|apply Qle_refl]. }
      { change (inject_Z 102) with (inject_Z 103 + - inject_Z 1)%Q.
        apply Qplus_le_compat; [exact Hh1|apply Qle_refl]. }
      cbn [Math_min].
      match goal with |- (if ?b then _ else _) = _ => assert (b = false) as ->; [|done] end.
      apply not_true_is_false. intros Hlt%num_ltb_Fin.
      eapply Qlt_not_le; [exact Hlt|]. eapply Qle_trans; [|exact Hl2]. done. }
    rewrite (isInt_eqb _ _ (MAX_SLOTS + 1) MAX_SLOTS (isInt_of_Z _) (isInt_of_Z _)).
    rewrite !(NumberToString_isInt _ _ (isInt_of_Z _)) by (by vm_compute).
    done.
Qed.

Lemma findBestSong_blank (SONGS : list song) (query : jsstring) :
  norm query = [] → findBestSong SONGS query = None.
Proof.
  intros Hq. apply findBestSong_None. intros s _.
  rewrite fuzzyScore_unfold, bool_decide_eq_true_2 by done. cbn [orb].
  by rewrite threshold_value.
Qed.

(** X18: a query whose normal form is empty (blanks, punctuation) finds
    nothing: the field shows nothing for the empty text and [Kein Treffer]
    for any other such text, whatever the catalogue. *)
Theorem X18_blank_query (albums : list album) (ass : list Z) (SONGS : list song)
    (q : jsstring) :
  norm q = [] →
  findBestSong SONGS q = None ∧
  showSongPlatz albums ass SONGS q =
    if bool_decide (q = []) then [] else units "Kein Treffer".
Proof.
  intros Hq. pose proof (findBestSong_blank SONGS q Hq) as Hn.
  split; [done|]. unfold showSongPlatz. by rewrite Hn.
Qed.

(** X19: when every entry of the catalogue carries the index of an album,
    the field never shows [Unbekannt]: it is empty, shows [Kein Treffer],
    or shows the slot of an entry of the catalogue, a number from 1 to
    [MAX_SLOTS + 1], after [Platz] or, for an approximate result, after
    the sign of approximation and [Platz]. *)
Theorem X19_valid_catalogue_shows_a_slot (albums : list album) (SONGS : list song)
    (q : jsstring) :
  (∀ s, s ∈ SONGS → ∃ i : nat, arrayIndex (albumIndex s) = Some i ∧ (i < length albums)%nat) →
  let out := showSongPlatz albums (albumStartSlot (computeMaps albums)) SONGS q in
  out = [] ∨ out = units "Kein Treffer" ∨
  ∃ (s : song) (z : Z),
    s ∈ SONGS ∧ 1 ≤ z ≤ MAX_SLOTS + 1 ∧
    computePlatzForSong albums (albumStartSlot (computeMaps albums)) s =
      Res.mk (Some z) (Res.approx (computePlatzForSong albums (albumStartSlot (computeMaps albums)) s)) ∧
    out = (if Res.approx (computePlatzForSong albums (albumStartSlot (computeMaps albums)) s)
           then 8776%N :: units " Platz " else units "Platz ")
          ++ NumberToString (num_of_Z z).
Proof.
  intros Hvalid out. subst out. unfold showSongPlatz.
  case_bool_decide; [by left|].
  destruct (findBestSong SONGS q) as [s|] eqn:Hf; [|right; by left].
  right; right.
  destruct (findBestSong_Some SONGS q s Hf) as (l1 & l2 & -> & _).
  assert (s ∈ l1 ++ s :: l2) as Hs by (apply elem_of_app; right; by left).
  destruct (Hvalid s Hs) as (i & Hi & Hlt).
  destruct (lookup_lt_is_Some_2 albums i Hlt) as [al Hal].
  pose proof (startSlot_range albums i) as Hr.
  assert (∃ z, 1 ≤ z ≤ MAX_SLOTS + 1 ∧
               Res.slot (computePlatzForSong albums (albumStartSlot (computeMaps albums)) s) = Some z)
    as (z & Hz & Hslot).
  { rewrite (computePlatzForSong_valid albums _ s i al Hi Hal).
    rewrite albumStartSlot_startSlot by done.
    change (default 0 (Some (startSlot albums i))) with (startSlot albums i). cbn zeta.
    repeat match goal with |- context [if ?b then _ else _] => destruct b end;
      cbn [Res.slot]; eexists; (split; [|done]); unfold MAX_SLOTS in *; lia. }
  exists s, z. split; [done|]. split; [done|].
  destruct (computePlatzForSong albums (albumStartSlot (computeMaps albums)) s) as [sl ap].
  cbn [Res.slot Res.approx] in *. subst sl. split; [done|].
  by rewrite (proj2 (Z.eqb_neq z 0)) by lia.
Qed.

End DisplayProperties.

Lemma integer_format_spec : NumberFormatSpec integer_format.
Proof.
  split; [|done]. intros q z Hq _. cbn [NumberToString integer_format].
  apply Qred_complete in Hq. rewrite Hq.
  rewrite Qcanon.Qred_identity by apply Z.gcd_1_r. done.
Qed.

Lemma X16_label_names_the_slots_witness :
  ∃ first last : Z,
    (∀ k : nat, slotToAlbum (computeMaps albums3) !! k = Some (Z.of_nat 1) ↔
                first ≤ Z.of_nat k ≤ last) ∧
    @rangeLabel integer_format albums3 (albumStartSlot (computeMaps albums3)) 1 =
      if decide (first = last) then decimal first
      else decimal first ++ [8211%N] ++ decimal last.
Proof.
  apply (@X16_label_names_the_slots integer_format integer_format_spec
           albums3 1 2 (album_of_discs 2) 2).
  - reflexivity.
  - apply isInt_of_eqb. reflexivity.
  - reflexivity.
Defined.

Lemma X17_label_beyond_the_slots_witness :
  (∀ k : nat, slotToAlbum (computeMaps albums60) !! k ≠ Some (Z.of_nat 55)) ∧
  @rangeLabel integer_format albums60 (albumStartSlot (computeMaps albums60)) 55 =
    decimal (MAX_SLOTS + 1) ++ [8211%N] ++ decimal MAX_SLOTS.
Proof.
  apply (@X17_label_beyond_the_slots integer_format integer_format_spec
           albums60 55 (album_of_discs 2)).
  - reflexivity.
  - reflexivity.
  - by vm_compute.
Defined.

Lemma X18_blank_query_witness :
  @findBestSong ascii_builtins [song_abbey_1] (units " ?! ") = None ∧
  @showSongPlatz ascii_builtins integer_format albums3
    (albumStartSlot (computeMaps albums3)) [song_abbey_1] (units " ?! ") =
    if bool_decide (units " ?! " = []) then [] else units "Kein Treffer".
Proof.
  apply (@X18_blank_query ascii_builtins integer_format). by vm_compute.
Defined.

Lemma X19_valid_catalogue_shows_a_slot_witness :
  let out := @showSongPlatz ascii_builtins integer_format albums3
               (albumStartSlot (computeMaps albums3))
               [song_let_it_be; song_abbey_1; song_abbey_2] (units "abby road") in
  out = [] ∨ out = units "Kein Treffer" ∨
  ∃ (s : song) (z : Z),
    s ∈ [song_let_it_be; song_abbey_1; song_abbey_2] ∧ 1 ≤ z ≤ MAX_SLOTS + 1 ∧
    computePlatzForSong albums3 (albumStartSlot (computeMaps albums3)) s =
      Res.mk (Some z) (Res.approx (computePlatzForSong albums3 (albumStartSlot (computeMaps albums3)) s)) ∧
    out = (if Res.approx (computePlatzForSong albums3 (albumStartSlot (computeMaps albums3)) s)
           then 8776%N :: units " Platz " else units "Platz ")
          ++ @NumberToString integer_format (num_of_Z z).
Proof.
  apply (@X19_valid_catalogue_shows_a_slot ascii_builtins integer_format).
  intros s Hs. repeat (apply elem_of_cons in Hs as [->|Hs]).
  - exists 0%nat. split; [reflexivity|cbn; lia].
  - exists 1%nat. split; [reflexivity|cbn; lia].
  - exists 2%nat. split; [reflexivity|cbn; lia].
  - by apply elem_of_nil in Hs.
Defined.

(** The label of the middle album of the three, and what the search field
    shows for ["abby road"]. *)
Example scenario_label_and_field :
  @rangeLabel integer_format albums3 (albumStartSlot (computeMaps albums3)) 1 =
    units "2" ++ [8211%N] ++ units "3" ∧
  @showSongPlatz ascii_builtins integer_format albums3
    (albumStartSlot (computeMaps albums3)) [song_let_it_be; song_abbey_1] (units "abby road") =
    units "Platz 2".
Proof. by vm_compute. Qed.

(** * Properties of the loader *)

Section LoaderProperties.
Context `{B : Builtins} `{F : NumberFormat}.

Lemma loadSong_albumIndex_default (x : json) (s : song) :
  loadSong x = Some s →
  nullish (getField (units "albumIndex") x) = true →
  albumIndex s = num_of_Z (-1).
Proof.
  unfold loadSong. intros Hs Hnull.
  assert (coalesce (getField (units "albumIndex") x) (Some (JNumber (num_of_Z (-1)))) =
          Some (JNumber (num_of_Z (-1)))) as Hc by (unfold coalesce; by rewrite Hnull).
  rewrite Hc in Hs. cbn [Number_opt Number_json] in Hs.
  destruct (String_opt _) as [title|]; [|done]. cbn [mbind option_bind] in Hs.
  destruct (if nullish _ then _ else _) as [d|]; [|done].
  cbn [mbind option_bind] in Hs. by injection Hs as <-.
Qed.

Lemma loadSong_trimmed (x : json) (s : song) :
  loadSong x = Some s → ∃ title : jsstring, n s = trim title.
Proof.
  unfold loadSong. intros Hs.
  destruct (String_opt _) as [title|]; [|done]. cbn [mbind option_bind] in Hs.
  destruct (Number_opt (coalesce _ _)) as [index|]; [|done].
  cbn [mbind option_bind] in Hs.
  destruct (if nullish _ then _ else _) as [d|]; [|done].
  cbn [mbind option_bind] in Hs. injection Hs as <-. by exists title.
Qed.

(** X20: when no conversion fails, the loader keeps every element of the
    array, in order; an element without an [albumIndex] (the field missing
    or [null], or the element no object at all) becomes an entry with the
    index -1, which [computePlatzForSong] answers with the [null] slot for
    any albums. *)
Theorem X20_entry_without_albumIndex (albums : list album) (ass : list Z)
    (l : list json) (SONGS : list song) (j : nat) (x : json) :
  loadSongs (JArray l) = Some SONGS →
  l !! j = Some x →
  nullish (getField (units "albumIndex") x) = true →
  fetchSongs (Some (JArray l)) = SONGS ∧
  length SONGS = length l ∧
  ∃ s : song,
    SONGS !! j = Some s ∧ loadSong x = Some s ∧
    albumIndex s = num_of_Z (-1) ∧
    computePlatzForSong albums ass s = Res.mk None false.
Proof.
  intros Hl Hx Hnull. cbn [loadSongs] in Hl.
  split; [unfold fetchSongs; cbn [mbind option_bind loadSongs]; by rewrite Hl|].
  apply mapM_Some in Hl. split; [symmetry; by eapply Forall2_length|].
  destruct (Forall2_lookup_l _ _ _ _ _ Hl Hx) as (s & Hs & Hload).
  exists s. split; [done|]. split; [done|].
  pose proof (loadSong_albumIndex_default x s Hload Hnull) as Hidx.
  split; [done|]. unfold computePlatzForSong. by rewrite Hidx.
Qed.

(** X21: no title of the loaded catalogue begins or ends with white
    space: trimming it again changes nothing. *)
Theorem X21_loaded_titles_trimmed (r : option json) (s : song) :
  s ∈ fetchSongs r → trim (n s) = n s ∧ headWS (n s) = false.
Proof.
  unfold fetchSongs. destruct r as [d|]; cbn [mbind option_bind default];
    [|by intros ?%elem_of_nil].
  destruct (loadSongs d) as [SONGS|] eqn:Hl; cbn [default from_option];
    [|by intros ?%elem_of_nil].
  unfold id. intros Hs.
  destruct d as [| | | |l|]; cbn [loadSongs] in Hl;
    try (injection Hl as <-; by apply elem_of_nil in Hs).
  apply mapM_Some in Hl.
  apply list_elem_of_lookup in Hs as [j Hj].
  destruct (Forall2_lookup_r _ _ _ _ _ Hl Hj) as (x & _ & Hload).
  destruct (loadSong_trimmed x s Hload) as [title ->].
  split; [apply trim_idemp|]. unfold trim. apply trimEnd_headWS, trimStart_headWS.
Qed.

(** X22: one element that cannot be converted empties the catalogue: when
    the title, the [albumIndex] or the [disc] of any element of the array
    is an object with a field [toString] (or an array that holds one), the
    exception ends the mapping and the [catch] leaves [SONGS] empty,
    whatever the other elements are. *)
Theorem X22_failed_conversion_empties_catalogue (l : list json) (x : json) :
  x ∈ l → loadSong x = None → fetchSongs (Some (JArray l)) = [].
Proof.
  intros Hx Hnone. unfold fetchSongs. cbn [mbind option_bind loadSongs].
  destruct (mapM loadSong l) as [SONGS|] eqn:Hl; [|done].
  apply mapM_Some in Hl. apply list_elem_of_lookup in Hx as [j Hj].
  destruct (Forall2_lookup_l _ _ _ _ _ Hl Hj) as (s & _ & Hload). congruence.
Qed.

(** X23: the song found always has a title, and the query a content: an
    entry whose title has an empty normal form (a malformed element of
    [songs.json] among them) is never the result of a search. *)
Theorem X23_found_song_has_a_title (SONGS : list song) (query : jsstring) (s : song) :
  findBestSong SONGS query = Some s → norm query ≠ [] ∧ norm (n s) ≠ [].
Proof.
  intros Hf. destruct (findBestSong_Some SONGS query s Hf) as (_ & _ & _ & Hsc & _).
  rewrite fuzzyScore_unfold, threshold_value in Hsc.
  destruct (decide (norm query = [])) as [Hq|Hq].
  { rewrite bool_decide_eq_true_2 in Hsc by done. cbn [orb] in Hsc. done. }
  destruct (decide (norm (n s) = [])) as [Hc|Hc]; [|done].
  rewrite (bool_decide_eq_true_2 (norm (n s) = [])), orb_true_r in Hsc by done. done.
Qed.

End LoaderProperties.

Lemma X20_entry_without_albumIndex_witness :
  @fetchSongs integer_format (Some json_catalogue) =
    [Song (units "Abbey Road") (num_of_Z 1) (Some (StringToNumber (units "2")));
     Song [] (num_of_Z (-1)) None;
     Song [] (num_of_Z (-1)) None;
     Song (units "Let It Be") (num_of_Z (-1)) None] ∧
  length [Song (units "Abbey Road") (num_of_Z 1) (Some (StringToNumber (units "2")));
          Song [] (num_of_Z (-1)) None;
          Song [] (num_of_Z (-1)) None;
          Song (units "Let It Be") (num_of_Z (-1)) None] = 4%nat ∧
  ∃ s : song,
    [Song (units "Abbey Road") (num_of_Z 1) (Some (StringToNumber (units "2")));
     Song [] (num_of_Z (-1)) None;
     Song [] (num_of_Z (-1)) None;
     Song (units "Let It Be") (num_of_Z (-1)) None] !! 3%nat = Some s ∧
    @loadSong integer_format
      (JObject [(units "n", JString (units "Let It Be")); (units "albumIndex", JNull)]) = Some s ∧
    albumIndex s = num_of_Z (-1) ∧
    computePlatzForSong albums3 (albumStartSlot (computeMaps albums3)) s = Res.mk None false.
Proof.
  apply (@X20_entry_without_albumIndex integer_format albums3 _
           [json_abbey; JNumber (num_of_Z 5); JNull;
            JObject [(units "n", JString (units "Let It Be")); (units "albumIndex", JNull)]]);
    reflexivity.
Defined.

Lemma X21_loaded_titles_trimmed_witness :
  trim (units "Abbey Road") = units "Abbey Road" ∧ headWS (units "Abbey Road") = false.
Proof.
  apply (@X21_loaded_titles_trimmed integer_format (Some json_catalogue)
           (Song (units "Abbey Road") (num_of_Z 1) (Some (StringToNumber (units "2"))))).
  vm_compute. apply elem_of_cons. by left.
Defined.

Lemma X22_failed_conversion_empties_catalogue_witness :
  @fetchSongs integer_format (Some (JArray [json_abbey; json_unprintable])) = [].
Proof.
  apply (@X22_failed_conversion_empties_catalogue integer_format _ json_unprintable).
  - apply elem_of_cons. right. apply elem_of_cons. by left.
  - reflexivity.
Defined.

Lemma X23_found_song_has_a_title_witness :
  @norm ascii_builtins (units "abby road") ≠ [] ∧
  @norm ascii_builtins (n song_abbey_1) ≠ [].
Proof.
  apply (@X23_found_song_has_a_title ascii_builtins [song_let_it_be; song_abbey_1]).
  by vm_compute.
Defined.

(** The loaded song of disc 2 on album 1 is shown at slot 3. *)
Example scenario_loader :
  @showSongPlatz ascii_builtins integer_format albums3
    (albumStartSlot (computeMaps albums3))
    (@fetchSongs integer_format (Some json_catalogue)) (units "abbey road") = units "Platz 3".
Proof. by vm_compute. Qed.

(** * Rounded numbers *)

(** A [discs] given as text is the double nearest to the number written:
    ["1.0000000000000000001"] and ["0.99999999999999999"] are 1,
    ["1.9999999999999999999"] is 2 and ["1e400"] is [Infinity].  An album
    with the first of these takes one slot, and a song of disc 2 on an album
    with the third is on the second slot of the album. *)
Example scenario_rounded_discs :
  StringToNumber (units "1.0000000000000000001") = num_of_Z 1 ∧
  StringToNumber (units "0.99999999999999999") = num_of_Z 1 ∧
  StringToNumber (units "1.9999999999999999999") = num_of_Z 2 ∧
  StringToNumber (units "1e400") = PosInf ∧
  (let albums := [Album (VString (units "1.0000000000000000001")); album_of_discs 1] in
   albumStartSlot (computeMaps albums) = [1; 2] ∧ slot (computeMaps albums) = 3 ∧
   take 4 (slotToAlbum (computeMaps albums)) = [-1; 0; 1; -1]) ∧
  (let albums := [Album (VString (units "1.9999999999999999999"))] in
   computePlatzForSong albums (albumStartSlot (computeMaps albums))
     (Song (units "x") (num_of_Z 0) (Some (num_of_Z 2))) = Res.mk (Some 2) false) ∧
  (let albums := [Album (VString (units "1.0000000000000000001"))] in
   computePlatzForSong albums (albumStartSlot (computeMaps albums))
     (Song (units "x") (num_of_Z 0) None) = Res.mk (Some 1) false).
Proof. by vm_compute. Qed.

(** Two titles whose scores against a query of twelve words are both 19/12
    when added without rounding: the first begins with the query and shares
    12 words of 36 with it (1 + 1/3 + 0.25), the second is the first seven
    words of the query (1 + 7/12).  In doubles the second score is one unit
    in the last place above the first, and the second entry is found. *)
Example scenario_rounded_scores :
  let query := units "a b c d e f g h i j k l" in
  let s1 := Song (units "a b c d e f g h i j k l m n o p q r s t u v w x y z 0 1 2 3 4 5 6 7 8 9")
              (num_of_Z 0) None in
  let s2 := Song (units "a b c d e f g") (num_of_Z 1) None in
  @fuzzyScore ascii_builtins query (n s1) = add64 (add64 1 (div64 12 36)) 0.25 ∧
  @fuzzyScore ascii_builtins query (n s2) = add64 1 (div64 7 12) ∧
  (1 + 12 / 36 + 0.25 == 1 + 7 / 12)%Q ∧
  @fuzzyScore ascii_builtins query (n s1) = (7130699410003285 # 4503599627370496)%Q ∧
  @fuzzyScore ascii_builtins query (n s2) = (3565349705001643 # 2251799813685248)%Q ∧
  (7130699410003285 # 4503599627370496 < 3565349705001643 # 2251799813685248)%Q ∧
  @findBestSong ascii_builtins [s1; s2] query = Some s2.
Proof. by vm_compute. Qed.
